(** * Code generation of the scratch-compiler x86_64 backend

    A shallow embedding of [src/codegen/x86_64.rs] (program assembler,
    procedure and statement generator, static strings) and of
    [src/codegen/x86_64/expr.rs] (the type-directed expression generator).

    Emitted assembly is kept as a list of structured instructions rather
    than as text: every multi-line string the Rust code writes becomes the
    list of its lines, one [Instr] per line. *)

From Stdlib Require Import List String Ascii ZArith Bool Lia.
Import ListNotations.
Open Scope string_scope.
Open Scope list_scope.
Set Warnings "-register-all".

(** ** IR (crate::ir, crate::span, sb3_stuff::Value) *)

(** [Span]: a source range, carried by errors for diagnostics. *)
Record Span := mkSpan { span_start : N; span_end : N }.

(** [sb3_stuff::Value]; an [f64] is kept as its IEEE-754 bit pattern,
    which is all the generator uses of it ([num.to_bits()]). *)
Module Value.
Inductive t :=
| Num (bits : Z)
| String (s : string)
| Bool (b : bool).
End Value.

(** Bit patterns of the [f64] values the generator writes itself. *)
Definition f64_one : Z := 0x3FF0000000000000.

(** [ir::expr::Expr]. *)
Inductive Expr :=
| Lit (lit : Value.t)
| Sym (sym : string) (sym_span : Span)
| FuncCall (func_name : string) (span : Span) (args : list Expr)
| AddSub (positives negatives : list Expr)
| MulDiv (numerators denominators : list Expr).

(** [ir::statement::Statement].  The generator only inspects [ProcCall],
    [Do] and [Forever]; the other variants are [todo!()] there. *)
Inductive Statement :=
| ProcCall (proc_name : string) (args : list Expr)
| Do (stmts : list Statement)
| IfElse (condition : Expr) (if_true if_false : Statement)
| Repeat (times : Expr) (body : Statement)
| Forever (body : Statement)
| Until (condition : Expr) (body : Statement)
| While (condition : Expr) (body : Statement)
| For (counter : string) (times : Expr) (body : Statement).

(** [ir::proc::Procedure]. *)
Record Procedure := mkProcedure { params : list string; body : Statement }.

(** A sprite's procedures, grouped by name, in the iteration order of its
    map; [Program]: the stage followed by the sprites in the iteration order
    of [program.sprites.values()]. *)
Record Sprite := mkSprite { procedures : list (string * list Procedure) }.
Record Program := mkProgram { stage : Sprite; sprites : list Sprite }.

(** [diagnostic::Error] (the variants raised by code generation). *)
Inductive Error :=
| UnknownVarOrList (span : Span) (sym_name : string)
| FunctionWrongArgCount (span : Span) (func_name : string) (expected got : nat)
| UnknownFunction (span : Span) (func_name : string).

Definition error_span (e : Error) : Span :=
  match e with
  | UnknownVarOrList sp _ | FunctionWrongArgCount sp _ _ _
  | UnknownFunction sp _ => sp
  end.

(** [codegen::typ::Typ]: the representation of a generated value. *)
Module Typ.
Inductive t := Double | Bool | StaticStr | OwnedString | Any.
End Typ.

(** ** Assembly *)

(** What an operand refers to: a register, a [Uid] label, a [LocalLabel],
    or a named symbol of the runtime / prelude. *)
Inductive Loc :=
| LReg (r : string)
| LUid (u : N)
| LLocal (u : N)
| LSym (s : string).

(** [Mem b off] is [[b+off]]; [Ref l] is the bare label [l];
    [Plt f] is [f wrt ..plt]; [F64 s] is NASM's [__?float64?__(s)]. *)
Inductive Operand :=
| Reg (r : string)
| Imm (z : Z)
| Mem (base : Loc) (off : Z)
| Ref (l : Loc)
| Plt (f : string)
| F64 (lit : string).

(** One line of output: an instruction, a label, a [staticstr] data line,
    or the included prelude ([x86_64/prelude.s]). *)
Inductive Instr :=
| Ins (mnemonic : string) (operands : list Operand)
| Label (l : Loc)
| StaticData (label : N) (bytes : list Z)
| Prelude.

Definition rax := Reg "rax".
Definition rdx := Reg "rdx".
Definition rdi := Reg "rdi".
Definition rsi := Reg "rsi".
Definition rcx := Reg "rcx".
Definition rsp := Reg "rsp".
Definition eax := Reg "eax".
Definition edx := Reg "edx".
Definition xmm0 := Reg "xmm0".
Definition xmm1 := Reg "xmm1".
Definition at_rsp (off : Z) := Mem (LReg "rsp") off.
Definition call (f : string) := Ins "call" [Ref (LSym f)].
Definition call_plt (f : string) := Ins "call" [Plt f].

(** Rust [s.bytes()] / [s.len()]. *)
Definition bytes (s : string) : list Z :=
  map (fun a => Z.of_N (N_of_ascii a)) (list_ascii_of_string s).

(** ** The generator state and its monad *)

(** [AsmProgram]: the fields the two source files use.  [vars] and
    [lists] are the variable and list slots known to [lookup_var] and
    [lookup_list]; [static_strs] is the static string table of the
    expression generator (content and label, in order of first use). *)
Record AsmProgram := mkAsm {
  uid_generator : N;
  entry_points : list N;
  text : list Instr;
  stack_aligned : bool;
  proc_params : list string;
  vars : list (string * N);
  lists : list (string * N);
  static_strs : list (string * N)
}.

Definition set_text (st : AsmProgram) (t : list Instr) : AsmProgram :=
  mkAsm (uid_generator st) (entry_points st) t (stack_aligned st)
        (proc_params st) (vars st) (lists st) (static_strs st).
Definition set_aligned (st : AsmProgram) (b : bool) : AsmProgram :=
  mkAsm (uid_generator st) (entry_points st) (text st) b
        (proc_params st) (vars st) (lists st) (static_strs st).
Definition set_uid (st : AsmProgram) (u : N) : AsmProgram :=
  mkAsm u (entry_points st) (text st) (stack_aligned st)
        (proc_params st) (vars st) (lists st) (static_strs st).
Definition set_entry_points (st : AsmProgram) (e : list N) : AsmProgram :=
  mkAsm (uid_generator st) e (text st) (stack_aligned st)
        (proc_params st) (vars st) (lists st) (static_strs st).
Definition set_static_strs (st : AsmProgram) (t : list (string * N)) : AsmProgram :=
  mkAsm (uid_generator st) (entry_points st) (text st) (stack_aligned st)
        (proc_params st) (vars st) (lists st) t.

(** A method of [AsmProgram] returning [Result<A>]: it mutates the state,
    and returns [Ok], returns [Err] (mutations so far are kept), or panics
    ([todo!()], [assert!], [unreachable!()]). *)
Inductive Outcome (A : Type) :=
| Ok (a : A) (st : AsmProgram)
| Err (e : Error) (st : AsmProgram)
| Panic.
Arguments Ok {A}. Arguments Err {A}. Arguments Panic {A}.

Definition M (A : Type) := AsmProgram -> Outcome A.

Definition ret {A} (a : A) : M A := fun st => Ok a st.
Definition bind {A B} (m : M A) (k : A -> M B) : M B :=
  fun st => match m st with
            | Ok a st' => k a st'
            | Err e st' => Err e st'
            | Panic => Panic
            end.
Definition fail {A} (e : Error) : M A := fun st => Err e st.
Definition panic {A} : M A := fun _ => Panic.
Definition gets {A} (f : AsmProgram -> A) : M A := fun st => Ok (f st) st.

Declare Scope monad_scope.
Notation "x <- m ;; k" := (bind m (fun x => k))
  (at level 61, m at next level, right associativity) : monad_scope.
Notation "m ;; k" := (bind m (fun _ : unit => k))
  (at level 61, right associativity) : monad_scope.
Open Scope monad_scope.

(** [self.emit(..)] / [writeln!(self, ..)]: append lines to the text. *)
Definition emit (c : list Instr) : M unit :=
  fun st => Ok tt (set_text st (text st ++ c)).

Definition get_aligned : M bool := gets stack_aligned.
Definition put_aligned (b : bool) : M unit :=
  fun st => Ok tt (set_aligned st b).
(** [self.stack_aligned ^= true]. *)
Definition toggle_aligned : M unit :=
  fun st => Ok tt (set_aligned st (xorb (stack_aligned st) true)).

(** [for x in l { f(x)? }]. *)
Fixpoint foreach {A} (l : list A) (f : A -> M unit) : M unit :=
  match l with
  | [] => ret tt
  | x :: l' => f x ;; foreach l' f
  end.

(** [iter().try_for_each(..)] over already-built actions. *)
Fixpoint sequence_ (l : list (M unit)) : M unit :=
  match l with
  | [] => ret tt
  | m :: l' => m ;; sequence_ l'
  end.

Fixpoint assoc {B} (k : string) (l : list (string * B)) : option B :=
  match l with
  | [] => None
  | (k', v) :: l' => if String.eqb k k' then Some v else assoc k l'
  end.

(** [iter().position(|p| p == x)]. *)
Fixpoint position (x : string) (l : list string) : option nat :=
  match l with
  | [] => None
  | y :: l' => if String.eqb y x then Some 0%nat
               else option_map S (position x l')
  end.

(** [[rest @ .., last]]. *)
Fixpoint split_last {A} (l : list A) : option (list A * A) :=
  match l with
  | [] => None
  | [x] => Some ([], x)
  | x :: l' => match split_last l' with
               | Some (r, y) => Some (x :: r, y)
               | None => None
               end
  end.

(** ** [codegen/x86_64.rs]: program assembler and statement generator *)

Module X86_64.

(** Modelled from the spec: [crate::uid::Generator::new_uid] (the [uid]
    module is not in this source tree); labels are unique identifiers,
    handed out one per call; a counter. *)
Definition new_uid : M N :=
  fun st => Ok (uid_generator st) (set_uid st (uid_generator st + 1)).

(** [allocate_static_str]: a fresh uid per call, and one [staticstr] data
    line with the string's bytes written to the text. *)
Definition allocate_static_str (s : string) : M N :=
  uid <- new_uid ;;
  emit [StaticData uid (bytes s)] ;;
  ret uid.

(** Modelled from the spec: [aligning_call] (used by [expr.rs], not in this
    source tree) "inserts an 8-byte pad push/pop when an odd number of words
    are outstanding, removing it symmetrically afterward"; it leaves the
    alignment flag as it found it. *)
Definition aligning_call (f : string) : M unit :=
  fun st =>
    if stack_aligned st then emit [call f] st
    else emit [Ins "sub" [rsp; Imm 8]; call f; Ins "add" [rsp; Imm 8]] st.

(** Modelled from the spec: [lookup_var] (used by [expr.rs], not in this
    source tree) resolves a named variable to its stable storage slot, if
    the program has one. *)
Definition lookup_var (sym : string) : M (option N) :=
  gets (fun st => assoc sym (vars st)).

(** Modelled from the spec: [lookup_list] (used by [expr.rs], not in this
    source tree) resolves a named list to its storage slot, and reports an
    unresolved list reference with its span. *)
Definition lookup_list (name : string) (span : Span) : M N :=
  fun st => match assoc name (lists st) with
            | Some id => Ok id st
            | None => Err (UnknownVarOrList span name) st
            end.

(** The function names matched by [generate_func_call] of this file; all but
    ["++"] are [todo!()]. *)
Definition legacy_known_functions : list string :=
  ["!!"; "and"; "or"; "not"; "="; "<"; ">"; "length"; "str-length";
   "char-at"; "mod"; "abs"; "floor"; "ceil"; "sqrt"; "ln"; "log"; "e^";
   "ten^"; "sin"; "cos"; "tan"; "asin"; "acos"; "atan"; "pressing-key";
   "to-num"; "random"].

Definition cowify : M unit := emit [call "cowify"].
Definition drop_pop : M unit := emit [call "drop_pop"].

(** [push_lit]. *)
Definition push_lit (lit : Value.t) : M unit :=
  match lit with
  | Value.Num bits =>
      emit [Ins "mov" [rax; Imm bits]; Ins "push" [rax]; Ins "push" [Imm 2]]
  | Value.String s =>
      string_id <- allocate_static_str s ;;
      emit [Ins "mov" [rax; Imm (Z.of_nat (length s))]; Ins "push" [rax];
            Ins "mov" [rcx; Ref (LUid string_id)]; Ins "push" [rcx]]
  | Value.Bool false => emit [Ins "push" [Imm 0]; Ins "push" [Imm 0]]
  | Value.Bool true => emit [Ins "push" [Imm 0]; Ins "push" [Imm 1]]
  end.

(** The [++] two-operand body of this file's [generate_func_call]. *)
Definition legacy_concat_body : list Instr :=
  [Ins "mov" [rdi; at_rsp 24]; Ins "add" [rdi; rsi]; Ins "mov" [at_rsp 40; rdi];
   call "malloc"; Ins "mov" [at_rsp 32; rax]; Ins "mov" [rdi; rax];
   Ins "mov" [rdx; rsi]; Ins "mov" [rsi; at_rsp 0]; call "memcpy";
   Ins "mov" [rdi; rax]; Ins "add" [rdi; at_rsp 8]; Ins "mov" [rsi; at_rsp 16];
   Ins "mov" [rdx; at_rsp 24]; call "memcpy"].

(** This file's [generate_func_call]; [args] pairs each argument with its
    compiled action. *)
Definition generate_func_call (func_name : string) (args : list (M unit))
    (span : Span) : M unit :=
  if String.eqb func_name "++" then
    match args with
    | [single] => single
    | [lhs; rhs] =>
        emit [Ins "push" [Imm 0]; Ins "push" [Imm 0]] ;;
        rhs ;; cowify ;; lhs ;; cowify ;;
        emit legacy_concat_body ;;
        drop_pop ;; drop_pop ;; ret tt
    | _ => panic
    end
  else if existsb (String.eqb func_name) legacy_known_functions then panic
  else fail (UnknownFunction span func_name).

(** This file's [generate_expr]. *)
Fixpoint generate_expr (expr : Expr) : M unit :=
  match expr with
  | Lit lit => push_lit lit
  | Sym _ _ => panic
  | FuncCall func_name span args =>
      generate_func_call func_name (map generate_expr args) span
  | AddSub _ _ => panic
  | MulDiv _ _ => panic
  end.

Section WithFormatting.

(** [Value::to_cow_str] of [sb3_stuff] (an external crate) on numbers:
    Scratch's number formatting. *)
Variable num_to_cow_str : Z -> string.

Definition to_cow_str (v : Value.t) : string :=
  match v with
  | Value.Num bits => num_to_cow_str bits
  | Value.String s => s
  | Value.Bool true => "true"
  | Value.Bool false => "false"
  end.

(** [generate_proc_call]. *)
Definition generate_proc_call (proc_name : string) (args : list Expr) : M unit :=
  if String.eqb proc_name "print" then
    match args with
    | [Lit message] =>
        let message := to_cow_str message in
        message_id <- allocate_static_str message ;;
        emit [Ins "mov" [rax; Imm 1]; Ins "mov" [rdi; Imm 1];
              Ins "mov" [rsi; Ref (LUid message_id)];
              Ins "mov" [rdx; Imm (Z.of_nat (length message))];
              Ins "syscall" []]
    | [message] =>
        generate_expr message ;; cowify ;;
        emit [Ins "mov" [rdx; rsi]; Ins "mov" [rsi; rdi]; Ins "mov" [rax; Imm 1];
              Ins "mov" [rdi; Imm 1]; Ins "syscall" []] ;;
        drop_pop
    | _ => panic
    end
  else panic.

(** [generate_statement]. *)
Fixpoint generate_statement (stmt : Statement) : M unit :=
  match stmt with
  | ProcCall proc_name args => generate_proc_call proc_name args
  | Do stmts => sequence_ (map generate_statement stmts)
  | Forever body =>
      loop_label <- new_uid ;;
      emit [Label (LUid loop_label)] ;;
      generate_statement body ;;
      emit [Ins "jmp" [Ref (LUid loop_label)]]
  | IfElse _ _ _ | Repeat _ _ | Until _ _ | While _ _ | For _ _ _ => panic
  end.

(** [generate_proc]: only ["when-flag-clicked"] procedures are handled;
    they must have no parameters ([assert!]). *)
Definition generate_proc (name : string) (proc : Procedure) : M N :=
  if String.eqb name "when-flag-clicked" then
    match params proc with
    | [] =>
        proc_id <- new_uid ;;
        (fun st => Ok tt (set_entry_points st (entry_points st ++ [proc_id]))) ;;
        emit [Label (LUid proc_id)] ;;
        generate_statement (body proc) ;;
        emit [Ins "ret" []] ;;
        ret proc_id
    | _ :: _ => panic
    end
  else panic.

(** The nested loop of [write_asm_file], over the procedures in iteration
    order: stage first, then the sprites. *)
Definition all_procs (program : Program) : list (string * Procedure) :=
  flat_map (fun '(name, procs) => map (fun p => (name, p)) procs)
           (flat_map procedures (stage program :: sprites program)).

Definition generate_all (ps : list (string * Procedure)) : M unit :=
  foreach ps (fun '(name, proc) => _ <- generate_proc name proc ;; ret tt).

(** [impl fmt::Display for AsmProgram]. *)
Definition render (p : AsmProgram) : list Instr :=
  [Prelude; Label (LSym "main")]
  ++ map (fun entry_point => Ins "call" [Ref (LUid entry_point)]) (entry_points p)
  ++ [Ins "mov" [rax; Imm 60]; Ins "mov" [rdi; Imm 0]; Ins "syscall" []]
  ++ text p.

Definition empty_program : AsmProgram := mkAsm 0 [] [] true [] [] [] [].

(** [write_asm_file]: [Ok] carries the file contents. *)
Definition write_asm_file (program : Program) : Outcome (list Instr) :=
  match generate_all (all_procs program) empty_program with
  | Ok _ st => Ok (render st) st
  | Err e st => Err e st
  | Panic => Panic
  end.

End WithFormatting.

End X86_64.

(** ** [codegen/x86_64/expr.rs]: the expression generator *)

Module X86_64Expr.
Import X86_64.

(** An argument of a function call together with its compiled action
    ([self.generate_expr(arg)]). *)
Definition Arg := (Expr * M Typ.t)%type.

(** [generate_bool_expr]. *)
Definition generate_bool_expr (compiled : M Typ.t) : M unit :=
  typ <- compiled ;;
  match typ with
  | Typ.Double => aligning_call "double_to_bool"
  | Typ.Bool => ret tt
  | Typ.StaticStr => aligning_call "static_str_to_bool"
  | Typ.OwnedString => aligning_call "owned_string_to_bool"
  | Typ.Any => aligning_call "any_to_bool"
  end.

(** [generate_double_expr]. *)
Definition generate_double_expr (compiled : M Typ.t) : M unit :=
  typ <- compiled ;;
  match typ with
  | Typ.Double => ret tt
  | Typ.Bool => aligning_call "bool_to_double"
  | Typ.StaticStr => aligning_call "static_str_to_double"
  | Typ.OwnedString => aligning_call "owned_string_to_double"
  | Typ.Any =>
      emit [Ins "mov" [rdi; rax]; Ins "mov" [rsi; rdx]] ;;
      aligning_call "any_to_double"
  end.

(** [generate_cow_expr]. *)
Definition generate_cow_expr (compiled : M Typ.t) : M unit :=
  typ <- compiled ;;
  match typ with
  | Typ.Double => aligning_call "double_to_cow"
  | Typ.Bool => aligning_call "bool_to_static_str"
  | Typ.StaticStr | Typ.OwnedString => ret tt
  | Typ.Any =>
      emit [Ins "mov" [rdi; rax]; Ins "mov" [rsi; rdx]] ;;
      aligning_call "any_to_cow"
  end.

(** [generate_any_expr]. *)
Definition generate_any_expr (compiled : M Typ.t) : M unit :=
  typ <- compiled ;;
  match typ with
  | Typ.Double => emit [Ins "movq" [rdx; xmm0]; Ins "mov" [rax; Imm 2]]
  | Typ.Bool | Typ.StaticStr | Typ.OwnedString | Typ.Any => ret tt
  end.

(** Modelled from the spec: the [allocate_static_str] that [expr.rs] calls
    with a [Cow<str>] (a method of the [AsmProgram<'a>] that file extends,
    not in this source tree).  Literal strings "are interned into the static
    string table", a "mapping from immutable literal content to a unique
    label, populated once at code-generation time as literals are
    encountered", rendered after the procedure bodies: a content already in
    the table gets its label back; a new one gets a fresh uid, recorded in
    the table.  The text is not touched. *)
Definition intern_static_str (s : string) : M N :=
  table <- gets static_strs ;;
  match assoc s table with
  | Some uid => ret uid
  | None =>
      uid <- new_uid ;;
      (fun st => Ok uid (set_static_strs st (static_strs st ++ [(s, uid)])))
  end.

(** [generate_lit]. *)
Definition generate_lit (lit : Value.t) : M Typ.t :=
  match lit with
  | Value.Num bits =>
      emit [Ins "mov" [rax; Imm bits]; Ins "movq" [xmm0; rax]] ;;
      ret Typ.Double
  | Value.String s =>
      string_id <- intern_static_str s ;;
      emit [Ins "lea" [rax; Mem (LUid string_id) 0];
            Ins "mov" [rdx; Imm (Z.of_nat (length s))]] ;;
      ret Typ.StaticStr
  | Value.Bool false => emit [Ins "xor" [eax; eax]] ;; ret Typ.Bool
  | Value.Bool true => emit [Ins "mov" [eax; Imm 1]] ;; ret Typ.Bool
  end.

(** The stack slot holding the running accumulator of an n-ary operator. *)
Definition acc_push : list Instr :=
  [Ins "sub" [rsp; Imm 8]; Ins "movsd" [at_rsp 0; xmm0]].
Definition acc_pop : list Instr :=
  [Ins "movsd" [xmm0; at_rsp 0]; Ins "add" [rsp; Imm 8]].
(** [acc <- term op acc] for [addsd] / [mulsd], and [acc <- acc op term]
    for [subsd] / [divsd]. *)
Definition acc_step (op : string) : list Instr :=
  [Ins op [xmm0; at_rsp 0]; Ins "movsd" [at_rsp 0; xmm0]].
Definition acc_step_rev (op : string) : list Instr :=
  [Ins "movsd" [xmm1; at_rsp 0]; Ins op [xmm1; xmm0]; Ins "movsd" [at_rsp 0; xmm1]].
(** The sign-bit flip closing an all-negative [AddSub]. *)
Definition negate_acc : list Instr :=
  [Ins "mov" [rax; Imm (Z.shiftl 1 63)]; Ins "xor" [at_rsp 0; rax];
   Ins "movsd" [xmm0; at_rsp 0]; Ins "add" [rsp; Imm 8]].
(** The reciprocal closing an all-denominator [MulDiv]. *)
Definition reciprocal_acc : list Instr :=
  [Ins "mov" [rax; F64 "1.0"]; Ins "movq" [xmm0; rax];
   Ins "divsd" [xmm0; at_rsp 0]; Ins "add" [rsp; Imm 8]].

(** [generate_add_sub]. *)
Definition generate_add_sub (positives negatives : list (M Typ.t)) : M Typ.t :=
  match positives, negatives with
  | [], [] => emit [Ins "xorpd" [xmm0; xmm0]]
  | initial :: positives, negatives =>
      generate_double_expr initial ;;
      emit acc_push ;; toggle_aligned ;;
      foreach positives (fun term =>
        generate_double_expr term ;; emit (acc_step "addsd")) ;;
      foreach negatives (fun term =>
        generate_double_expr term ;; emit (acc_step_rev "subsd")) ;;
      emit acc_pop ;; toggle_aligned
  | [], initial :: negatives =>
      generate_double_expr initial ;;
      emit acc_push ;; toggle_aligned ;;
      foreach negatives (fun term =>
        generate_double_expr term ;; emit (acc_step "addsd")) ;;
      emit negate_acc ;; toggle_aligned
  end ;;
  ret Typ.Double.

(** [generate_mul_div]. *)
Definition generate_mul_div (numerators denominators : list (M Typ.t)) : M Typ.t :=
  match numerators, denominators with
  | [], [] => _ <- generate_lit (Value.Num f64_one) ;; ret tt
  | initial :: numerators, denominators =>
      generate_double_expr initial ;;
      emit acc_push ;; toggle_aligned ;;
      foreach numerators (fun term =>
        generate_double_expr term ;; emit (acc_step "mulsd")) ;;
      foreach denominators (fun term =>
        generate_double_expr term ;; emit (acc_step_rev "divsd")) ;;
      emit acc_pop ;; toggle_aligned
  | [], initial :: denominators =>
      generate_double_expr initial ;;
      emit acc_push ;; toggle_aligned ;;
      foreach denominators (fun term =>
        generate_double_expr term ;; emit (acc_step "mulsd")) ;;
      emit reciprocal_acc ;; toggle_aligned
  end ;;
  ret Typ.Double.

(** [generate_symbol]: a procedure parameter, else a variable, else an
    error carrying the symbol's span. *)
Definition generate_symbol (sym : string) (span : Span) : M Typ.t :=
  ps <- gets proc_params ;;
  match position sym ps with
  | Some param_index =>
      let off := Z.of_nat ((List.length ps - param_index) * 16) in
      emit [Ins "mov" [rdi; Mem (LReg "rbp") off];
            Ins "mov" [rsi; Mem (LReg "rbp") (off + 8)]] ;;
      aligning_call "clone_any" ;;
      ret Typ.Any
  | None =>
      var <- lookup_var sym ;;
      match var with
      | Some var_id =>
          emit [Ins "mov" [rdi; Mem (LUid var_id) 0];
                Ins "mov" [rsi; Mem (LUid var_id) 8]] ;;
          aligning_call "clone_any" ;;
          ret Typ.Any
      | None => fail (UnknownVarOrList span sym)
      end
  end.

(** [generate_comparison]: a [Greater] request swaps its operands. *)
Definition generate_comparison (ordering : comparison) (lhs rhs : M Typ.t)
    : M Typ.t :=
  let '(ordering, lhs, rhs) :=
    match ordering with
    | Gt => (Lt, rhs, lhs)
    | _ => (ordering, lhs, rhs)
    end in
  typ <- lhs ;;
  match typ with
  | Typ.Double =>
      emit acc_push ;; toggle_aligned ;;
      rtyp <- rhs ;;
      match rtyp with
      | Typ.Double =>
          let condition := match ordering with Lt => "setb" | _ => "sete" end in
          emit [Ins "movsd" [xmm1; at_rsp 0]; Ins "xor" [eax; eax];
                Ins "ucomisd" [xmm1; xmm0]; Ins condition [Reg "al"]]
      | Typ.Bool =>
          match ordering with
          | Eq => emit [Ins "xor" [eax; eax]]
          | _ => panic
          end
      | Typ.StaticStr | Typ.OwnedString | Typ.Any => panic
      end ;;
      emit [Ins "add" [rsp; Imm 8]] ;; toggle_aligned
  | Typ.Bool | Typ.StaticStr | Typ.OwnedString | Typ.Any => panic
  end ;;
  ret Typ.Bool.

(** The fixed instruction blocks of the [++] fold step: before and after
    compiling the next operand (to the left) to its cow form. *)
Definition concat_pre : list Instr :=
  [Ins "push" [rdx]; Ins "sub" [rsp; Imm 8]; Ins "push" [rdx]; Ins "push" [rax]].
Definition concat_post : list Instr :=
  [Ins "add" [at_rsp 24; rdx]; Ins "push" [rdx]; Ins "push" [rax];
   Ins "mov" [rdi; at_rsp 40]; call_plt "malloc"; Ins "mov" [at_rsp 32; rax];
   Ins "mov" [rdi; rax]; Ins "mov" [rsi; at_rsp 0]; Ins "mov" [rdx; at_rsp 8];
   call_plt "memcpy";
   Ins "mov" [rdi; rax]; Ins "add" [rdi; at_rsp 8]; Ins "mov" [rsi; at_rsp 16];
   Ins "mov" [rdx; at_rsp 24]; call_plt "memcpy";
   call "drop_pop_cow"; call "drop_pop_cow"; Ins "pop" [rax]; Ins "pop" [rdx]].

(** The blocks of [str-length] and [char-at] around their runtime calls. *)
Definition str_length_body : list Instr :=
  [Ins "push" [rdx]; Ins "push" [rax]; call "str_length"; Ins "mov" [rdi; rax];
   call "usize_to_double"; Ins "movsd" [at_rsp 16; xmm0]; call "drop_pop_cow";
   Ins "movsd" [xmm0; at_rsp 0]].
Definition char_at_body : list Instr :=
  [call "double_to_usize"; Ins "mov" [rdx; rax]; Ins "mov" [rdi; at_rsp 0];
   Ins "mov" [rsi; at_rsp 8]; call "char_at"; Ins "mov" [at_rsp 16; rax];
   Ins "mov" [at_rsp 24; rdx]; call "drop_pop_cow"; Ins "pop" [rax];
   Ins "pop" [rdx]].

Definition sub_rsp (n : Z) : Instr := Ins "sub" [rsp; Imm n].
Definition add_rsp (n : Z) : Instr := Ins "add" [rsp; Imm n].

(** [generate_func_call]; [args] pairs each argument with its compiled
    action. *)
Definition generate_func_call (func_name : string) (args : list Arg) (span : Span)
    : M Typ.t :=
  let wrong_arg_count {A} (expected : nat) : M A :=
    fail (FunctionWrongArgCount span func_name expected (List.length args)) in
  let mathop (code : list Instr) : M Typ.t :=
    match args with
    | [operand] => generate_double_expr (snd operand) ;; emit code ;; ret Typ.Double
    | _ => wrong_arg_count 1%nat
    end in
  let libc_mathop (name : string) : M Typ.t :=
    match args with
    | [operand] =>
        generate_double_expr (snd operand) ;; emit [call_plt name] ;; ret Typ.Double
    | _ => wrong_arg_count 1%nat
    end in
  if String.eqb func_name "!!" then
    match args with
    | [(Sym list_name list_span, _); index] =>
        list_id <- lookup_list list_name list_span ;;
        generate_any_expr (snd index) ;;
        emit [Ins "mov" [rdi; rax]; Ins "mov" [rsi; rdx];
              Ins "lea" [rdx; Mem (LUid list_id) 0]] ;;
        aligning_call "list_get" ;;
        ret Typ.Any
    | _ => wrong_arg_count 2%nat
    end
  else if String.eqb func_name "++" then
    match args with
    | [] => emit [Ins "lea" [rax; Mem (LSym "str_empty") 0]; Ins "xor" [edx; edx]] ;;
            ret Typ.StaticStr
    | [single] => snd single
    | _ =>
        match split_last args with
        | Some (rest, last) =>
            generate_cow_expr (snd last) ;;
            stack_was_aligned <- get_aligned ;;
            (if stack_was_aligned then ret tt else emit [sub_rsp 8]) ;;
            put_aligned true ;;
            foreach (rev rest) (fun arg =>
              emit concat_pre ;; generate_cow_expr (snd arg) ;; emit concat_post) ;;
            (if stack_was_aligned then ret tt else emit [add_rsp 8]) ;;
            put_aligned stack_was_aligned ;;
            ret Typ.OwnedString
        | None => panic
        end
    end
  else if String.eqb func_name "and" || String.eqb func_name "or" then
    match args with
    | [] => generate_lit (Value.Bool (String.eqb func_name "and"))
    | [single] => snd single
    | _ =>
        match split_last args with
        | Some (rest, last) =>
            short_circuit <- new_uid ;;
            let short_circuit_condition :=
              if String.eqb func_name "and" then "jz" else "jnz" in
            foreach rest (fun arg =>
              generate_bool_expr (snd arg) ;;
              emit [Ins "test" [rax; rax];
                    Ins short_circuit_condition [Ref (LLocal short_circuit)]]) ;;
            generate_bool_expr (snd last) ;;
            emit [Label (LLocal short_circuit)] ;;
            ret Typ.Bool
        | None => panic
        end
    end
  else if String.eqb func_name "not" then
    match args with
    | [operand] =>
        generate_bool_expr (snd operand) ;; emit [Ins "xor" [rax; Imm 1]] ;;
        ret Typ.Bool
    | _ => wrong_arg_count 1%nat
    end
  else if String.eqb func_name "<" || String.eqb func_name "="
          || String.eqb func_name ">" then
    match args with
    | [lhs; rhs] =>
        let ordering :=
          if String.eqb func_name "<" then Lt
          else if String.eqb func_name "=" then Eq else Gt in
        generate_comparison ordering (snd lhs) (snd rhs)
    | _ => wrong_arg_count 2%nat
    end
  else if String.eqb func_name "length" then
    match args with
    | [(Sym list_name list_span, _)] =>
        list_id <- lookup_list list_name list_span ;;
        emit [Ins "mov" [rdi; Mem (LUid list_id) 8]; call "usize_to_double"] ;;
        ret Typ.Double
    | _ => wrong_arg_count 1%nat
    end
  else if String.eqb func_name "str-length" then
    match args with
    | [s] =>
        generate_cow_expr (snd s) ;;
        stack_was_aligned <- get_aligned ;;
        emit [if stack_was_aligned then sub_rsp 8 else sub_rsp 16] ;;
        put_aligned true ;;
        emit str_length_body ;;
        emit [if stack_was_aligned then add_rsp 8 else add_rsp 16] ;;
        put_aligned stack_was_aligned ;;
        ret Typ.Double
    | _ => wrong_arg_count 1%nat
    end
  else if String.eqb func_name "char-at" then
    match args with
    | [s; index] =>
        generate_cow_expr (snd s) ;;
        emit [sub_rsp 16; Ins "push" [rdx]; Ins "push" [rax]] ;;
        generate_double_expr (snd index) ;;
        stack_was_aligned <- get_aligned ;;
        (if stack_was_aligned then ret tt else emit [sub_rsp 8]) ;;
        put_aligned true ;;
        emit char_at_body ;;
        (if stack_was_aligned then ret tt else emit [add_rsp 8]) ;;
        put_aligned stack_was_aligned ;;
        ret Typ.OwnedString
    | _ => wrong_arg_count 2%nat
    end
  else if String.eqb func_name "mod" then
    match args with
    | [lhs; rhs] =>
        generate_double_expr (snd rhs) ;;
        stack_was_aligned <- get_aligned ;;
        emit [if stack_was_aligned then sub_rsp 8 else sub_rsp 16] ;;
        put_aligned true ;;
        emit [Ins "movsd" [at_rsp 0; xmm0]] ;;
        generate_double_expr (snd lhs) ;;
        emit [Ins "movsd" [xmm1; at_rsp 0]; call "fmod"] ;;
        emit [if stack_was_aligned then add_rsp 8 else add_rsp 16] ;;
        put_aligned stack_was_aligned ;;
        ret Typ.Double
    | _ => wrong_arg_count 2%nat
    end
  else if String.eqb func_name "abs" then
    mathop [Ins "mov" [rax; Imm (Z.shiftl 1 63 - 1)]; Ins "movq" [xmm1; rax];
            Ins "andpd" [xmm0; xmm1]]
  else if String.eqb func_name "floor" then mathop [Ins "roundsd" [xmm0; xmm0; Imm 1]]
  else if String.eqb func_name "ceil" then mathop [Ins "roundsd" [xmm0; xmm0; Imm 2]]
  else if String.eqb func_name "sqrt" then mathop [Ins "sqrtsd" [xmm0; xmm0]]
  else if String.eqb func_name "ln" then libc_mathop "log"
  else if String.eqb func_name "log" then libc_mathop "log10"
  else if String.eqb func_name "e^" then libc_mathop "exp"
  else if String.eqb func_name "ten^" then libc_mathop "exp10"
  else if String.eqb func_name "sin" then libc_mathop "sin"
  else if String.eqb func_name "cos" then libc_mathop "cos"
  else if String.eqb func_name "tan" then libc_mathop "tan"
  else if String.eqb func_name "asin" then libc_mathop "asin"
  else if String.eqb func_name "acos" then libc_mathop "acos"
  else if String.eqb func_name "atan" then libc_mathop "atan"
  else if String.eqb func_name "pressing-key" then panic
  else if String.eqb func_name "to-num" then
    match args with
    | [operand] => generate_double_expr (snd operand) ;; ret Typ.Double
    | _ => wrong_arg_count 1%nat
    end
  else if String.eqb func_name "random" then panic
  else fail (UnknownFunction span func_name).

(** [generate_expr]. *)
Fixpoint generate_expr (expr : Expr) : M Typ.t :=
  match expr with
  | Lit lit => generate_lit lit
  | Sym sym sym_span => generate_symbol sym sym_span
  | FuncCall func_name span args =>
      generate_func_call func_name (map (fun a => (a, generate_expr a)) args) span
  | AddSub positives negatives =>
      generate_add_sub (map generate_expr positives) (map generate_expr negatives)
  | MulDiv numerators denominators =>
      generate_mul_div (map generate_expr numerators) (map generate_expr denominators)
  end.

End X86_64Expr.

(** ** A symbolic machine for the emitted instructions

    Runs straight-line code and forward jumps over symbolic 64-bit values.
    Floating-point arithmetic stays symbolic ([SFop]); integer addition and
    xor compute on known values.  A call to a runtime helper is recorded
    with its argument registers, returns fresh symbolic results and makes
    the caller-saved registers unknown. *)

Module Machine.
Local Open Scope Z_scope.

Inductive sv :=
| SNum (z : Z)
| SIn (name : string)
| SAdd (a b : sv)
| SXor (a b : sv)
| SFop (op : string) (a b : sv)
| SRet (f : string) (k : nat) (reg : string)
| SAddr (l : Loc)
| SUndef.

Definition sadd (a b : sv) : sv :=
  match a, b with
  | SNum x, SNum y => SNum ((x + y) mod 2 ^ 64)
  | _, _ => SAdd a b
  end.

Definition sxor (a b : sv) : sv :=
  match a, b with
  | SNum x, SNum y => SNum (Z.lxor x y)
  | _, _ => SXor a b
  end.

Record mstate := mkM {
  regs : list (string * sv);
  stk : list sv;                       (** top of stack first *)
  calls : list (string * list sv);     (** helper calls, oldest first *)
  zf : option bool;
  skipping : option Loc                (** a taken jump, until its label *)
}.

Definition Loc_eqb (a b : Loc) : bool :=
  match a, b with
  | LReg x, LReg y | LSym x, LSym y => String.eqb x y
  | LUid x, LUid y | LLocal x, LLocal y => N.eqb x y
  | _, _ => false
  end.

Definition Operand_eqb (a b : Operand) : bool :=
  match a, b with
  | Reg x, Reg y | Plt x, Plt y | F64 x, F64 y => String.eqb x y
  | Imm x, Imm y => Z.eqb x y
  | Mem l x, Mem l' y => Loc_eqb l l' && Z.eqb x y
  | Ref l, Ref l' => Loc_eqb l l'
  | _, _ => false
  end.

(** Writes to [eax] / [edx] zero-extend into [rax] / [rdx]. *)
Definition canon (r : string) : string :=
  if String.eqb r "eax" then "rax" else if String.eqb r "edx" then "rdx" else r.

Definition get_reg (m : mstate) (r : string) : sv :=
  match assoc (canon r) (regs m) with Some v => v | None => SUndef end.

Definition with_regs (m : mstate) (rs : list (string * sv)) : mstate :=
  mkM rs (stk m) (calls m) (zf m) (skipping m).
Definition with_stk (m : mstate) (s : list sv) : mstate :=
  mkM (regs m) s (calls m) (zf m) (skipping m).
Definition set_reg (m : mstate) (r : string) (v : sv) : mstate :=
  with_regs m ((canon r, v) :: regs m).

Fixpoint replace_nth {A} (l : list A) (n : nat) (x : A) : option (list A) :=
  match l, n with
  | [], _ => None
  | _ :: l', O => Some (x :: l')
  | y :: l', S n' => option_map (cons y) (replace_nth l' n' x)
  end.

Definition stack_slot (off : Z) : option nat :=
  if (0 <=? off) && (off mod 8 =? 0) then Some (Z.to_nat (off / 8)) else None.

Definition read (m : mstate) (op : Operand) : option sv :=
  match op with
  | Reg r => Some (get_reg m r)
  | Imm z => Some (SNum z)
  | Mem (LReg r) off =>
      if String.eqb r "rsp" then
        match stack_slot off with Some i => nth_error (stk m) i | None => None end
      else None
  | Ref l => Some (SAddr l)
  | F64 lit => if String.eqb lit "1.0" then Some (SNum f64_one) else None
  | _ => None
  end.

Definition write (m : mstate) (op : Operand) (v : sv) : option mstate :=
  match op with
  | Reg r => Some (set_reg m r v)
  | Mem (LReg r) off =>
      if String.eqb r "rsp" then
        match stack_slot off with
        | Some i => option_map (with_stk m) (replace_nth (stk m) i v)
        | None => None
        end
      else None
  | _ => None
  end.

Definition caller_saved : list string := ["rcx"; "rdx"; "rsi"; "rdi"; "xmm0"; "xmm1"].

Definition clobber (m : mstate) : mstate :=
  fold_left (fun m r => set_reg m r SUndef) caller_saved m.

Definition record (m : mstate) (f : string) (args : list sv) : mstate :=
  mkM (regs m) (stk m) (calls m ++ [(f, args)]) (zf m) (skipping m).

(** Modelled from the spec: a call of a runtime or libc routine (the
    runtime is not in this source tree).  [drop_pop_cow] is "a release
    variant that consumes a borrowed-or-owned (cow) intermediate": it
    releases the two-word cow value on top of the stack and pops it.
    [memcpy] returns its destination (libc). *)
Definition exec_call (f : string) (m : mstate) : option mstate :=
  let k := List.length (calls m) in
  if String.eqb f "drop_pop_cow" then
    match stk m with
    | p :: n :: s => Some (set_reg (clobber (record (with_stk m s) f [p; n])) "rax" SUndef)
    | _ => None
    end
  else
    let args := [get_reg m "rdi"; get_reg m "rsi"; get_reg m "rdx"] in
    let m1 := clobber (record m f args) in
    if String.eqb f "memcpy" then Some (set_reg m1 "rax" (get_reg m "rdi"))
    else Some (set_reg (set_reg (set_reg m1 "rax" (SRet f k "rax"))
                                "rdx" (SRet f k "rdx")) "xmm0" (SRet f k "xmm0")).

Fixpoint repeat_push (n : nat) (s : list sv) : list sv :=
  match n with O => s | S n' => SUndef :: repeat_push n' s end.

Definition float_ops : list string := ["addsd"; "subsd"; "mulsd"; "divsd"].

Definition exec_ins (op : string) (args : list Operand) (m : mstate) : option mstate :=
  if existsb (String.eqb op) ["mov"; "movq"; "movsd"] then
    match args with
    | [d; s] => match read m s with Some v => write m d v | None => None end
    | _ => None
    end
  else if String.eqb op "lea" then
    match args with
    | [d; Mem l 0] => write m d (SAddr l)
    | _ => None
    end
  else if String.eqb op "push" then
    match args with
    | [s] => option_map (fun v => with_stk m (v :: stk m)) (read m s)
    | _ => None
    end
  else if String.eqb op "pop" then
    match args, stk m with
    | [d], v :: s => write (with_stk m s) d v
    | _, _ => None
    end
  else if String.eqb op "sub" then
    match args with
    | [Reg "rsp"; Imm n] =>
        if (0 <=? n) && (n mod 8 =? 0)
        then Some (with_stk m (repeat_push (Z.to_nat (n / 8)) (stk m))) else None
    | _ => None
    end
  else if String.eqb op "add" then
    match args with
    | [Reg "rsp"; Imm n] =>
        if (0 <=? n) && (n mod 8 =? 0) && (Z.to_nat (n / 8) <=? List.length (stk m))%nat
        then Some (with_stk m (skipn (Z.to_nat (n / 8)) (stk m))) else None
    | [d; s] =>
        match read m d, read m s with
        | Some a, Some b => write m d (sadd a b)
        | _, _ => None
        end
    | _ => None
    end
  else if String.eqb op "xor" || String.eqb op "xorpd" then
    match args with
    | [d; s] =>
        if Operand_eqb d s then write m d (SNum 0)
        else match read m d, read m s with
             | Some a, Some b => write m d (sxor a b)
             | _, _ => None
             end
    | _ => None
    end
  else if existsb (String.eqb op) float_ops then
    match args with
    | [d; s] =>
        match read m d, read m s with
        | Some a, Some b => write m d (SFop op a b)
        | _, _ => None
        end
    | _ => None
    end
  else if String.eqb op "test" then
    match args with
    | [a; b] =>
        match read m a, read m b with
        | Some (SNum x), Some (SNum y) =>
            Some (mkM (regs m) (stk m) (calls m) (Some (Z.land x y =? 0)) (skipping m))
        | _, _ => None
        end
    | _ => None
    end
  else if String.eqb op "jz" || String.eqb op "jnz" || String.eqb op "jmp" then
    match args with
    | [Ref l] =>
        let taken :=
          if String.eqb op "jmp" then Some true
          else if String.eqb op "jz" then zf m else option_map negb (zf m) in
        match taken with
        | Some true => Some (mkM (regs m) (stk m) (calls m) (zf m) (Some l))
        | Some false => Some m
        | None => None
        end
    | _ => None
    end
  else if String.eqb op "call" then
    match args with
    | [Ref (LSym f)] | [Plt f] => exec_call f m
    | _ => None
    end
  else None.

Definition exec1 (i : Instr) (m : mstate) : option mstate :=
  match skipping m with
  | Some l =>
      match i with
      | Label l' => if Loc_eqb l l'
                    then Some (mkM (regs m) (stk m) (calls m) (zf m) None)
                    else Some m
      | _ => Some m
      end
  | None =>
      match i with
      | Ins op args => exec_ins op args m
      | Label _ | StaticData _ _ | Prelude => Some m
      end
  end.

Fixpoint exec (c : list Instr) (m : mstate) : option mstate :=
  match c with
  | [] => Some m
  | i :: c' => match exec1 i m with Some m' => exec c' m' | None => None end
  end.

Definition init : mstate := mkM [] [] [] None None.

End Machine.

(** ** Stack reservations of emitted code

    Bytes of stack an instruction reserves (negative: releases).  Runtime
    routines other than [drop_pop_cow] leave the stack as they found it;
    [drop_pop_cow] pops the two-word cow value it releases (see
    [Machine.exec_call]). *)
Definition reserved_by (i : Instr) : Z :=
  match i with
  | Ins "push" _ => 8
  | Ins "pop" _ => -8
  | Ins "sub" [Reg "rsp"; Imm n] => n
  | Ins "add" [Reg "rsp"; Imm n] => - n
  | Ins "call" [Ref (LSym "drop_pop_cow")] => -16
  | _ => 0
  end%Z.

Definition reserved (c : list Instr) : Z :=
  fold_right (fun i acc => (reserved_by i + acc)%Z) 0%Z c.

(** [eff_from b m b' d]: when started with alignment flag [b], a successful
    run of [m] ends with flag [b'] and has appended code reserving [d]
    bytes in total. *)
Definition eff_from {A} (b : bool) (m : M A) (b' : bool) (d : Z) : Prop :=
  forall st a st', stack_aligned st = b -> m st = Ok a st' ->
    stack_aligned st' = b' /\ exists c, text st' = text st ++ c /\ reserved c = d.

(** Net-zero for the stack and for the alignment flag. *)
Definition closed {A} (m : M A) : Prop := forall b, eff_from b m b 0%Z.

(** * Proofs *)

Import X86_64.
Import X86_64Expr.

(** * Sample inputs *)

(** A state with no variables, lists or parameters, and the given alignment
    flag. *)
Definition sample_state (aligned : bool) : AsmProgram :=
  set_aligned empty_program aligned.

Definition str_lit (s : string) : Expr := Lit (Value.String s).
Definition num_lit (bits : Z) : Expr := Lit (Value.Num bits).
Definition bool_lit (b : bool) : Expr := Lit (Value.Bool b).
Definition sample_span : Span := {| span_start := 0; span_end := 0 |}.

(** IEEE-754 bit patterns of 5.0 and -5.0, and the sign bit. *)
Definition f64_five : Z := 0x4014000000000000.
Definition f64_neg_five : Z := 0xC014000000000000.
Definition sign_mask : Z := Z.shiftl 1 63.

(** [m] succeeds with [tt], appends [c] to the text and changes at most the
    alignment flag. *)
Definition appends (c : list Instr) (m : M unit) : Prop :=
  forall st, exists b, m st = Ok tt (set_aligned (set_text st (text st ++ c)) b).

(** Compiling [e] in state [st] succeeds with representation [t] and
    appends exactly [c]. *)
Definition compiles_to (e : Expr) (st : AsmProgram) (t : Typ.t) (c : list Instr)
    : Prop :=
  exists st', generate_expr e st = Ok t st' /\ text st' = text st ++ c.

(** Running [c] from the empty machine succeeds and leaves [v] in [r]. *)
Definition runs_to (c : list Instr) (r : string) (v : Machine.sv) : Prop :=
  exists m, Machine.exec c Machine.init = Some m /\ Machine.get_reg m r = v.

(** The accumulator after folding the terms [xs] into [acc] with [op]
    ([acc_step]: the new term is the left operand). *)
Fixpoint acc_fold (op : string) (acc : Machine.sv) (xs : list Z) : Machine.sv :=
  match xs with
  | [] => acc
  | x :: xs' => acc_fold op (Machine.SFop op (Machine.SNum x) acc) xs'
  end.

(** The code of a number literal ([generate_lit]). *)
Definition load_num (x : Z) : list Instr := [Ins "mov" [rax; Imm x]; Ins "movq" [xmm0; rax]].

(** The code of a boolean literal ([generate_lit]). *)
Definition bool_code (b : bool) : list Instr :=
  if b then [Ins "mov" [eax; Imm 1]] else [Ins "xor" [eax; eax]].

(** [m] succeeds with [t] and appends exactly [c], from any state. *)
Definition gives {A} (m : M A) (t : A) (c : list Instr) : Prop :=
  forall st, exists st', m st = Ok t st' /\ text st' = text st ++ c.

(** The machine after loading [x] and pushing it as the accumulator. *)
Definition acc_prefix_state (x : Z) : Machine.mstate :=
  Machine.mkM [("xmm0", Machine.SNum x); ("rax", Machine.SNum x)] [Machine.SNum x] []
    None None.

(** The function names [generate_func_call] of [expr.rs] matches. *)
Definition expr_known_functions : list string :=
  ["!!"; "++"; "and"; "or"; "not"; "<"; "="; ">"; "length"; "str-length";
   "char-at"; "mod"; "abs"; "floor"; "ceil"; "sqrt"; "ln"; "log"; "e^";
   "ten^"; "sin"; "cos"; "tan"; "asin"; "acos"; "atan"; "pressing-key";
   "to-num"; "random"].

(** The functions whose branch takes exactly one operand of any form, and
    the ones that take exactly two. *)
Definition unary_functions : list string :=
  ["not"; "str-length"; "abs"; "floor"; "ceil"; "sqrt"; "ln"; "log"; "e^";
   "ten^"; "sin"; "cos"; "tan"; "asin"; "acos"; "atan"; "to-num"].
Definition binary_functions : list string := ["<"; "="; ">"; "char-at"; "mod"].

(** A program whose only entry procedure prints the value of a call of an
    unknown function. *)
Definition unknown_fn_program : Program :=
  mkProgram
    (mkSprite [("when-flag-clicked",
                [mkProcedure [] (ProcCall "print" [FuncCall "frob" sample_span []])])])
    [].

(** Induction on expressions with the nested operand lists. *)
Fixpoint Expr_ind' (P : Expr -> Prop)
    (Hlit : forall lit, P (Lit lit))
    (Hsym : forall sym sp, P (Sym sym sp))
    (Hcall : forall f sp args, Forall P args -> P (FuncCall f sp args))
    (Haddsub : forall ps ns, Forall P ps -> Forall P ns -> P (AddSub ps ns))
    (Hmuldiv : forall ns ds, Forall P ns -> Forall P ds -> P (MulDiv ns ds))
    (e : Expr) {struct e} : P e :=
  let rec := Expr_ind' P Hlit Hsym Hcall Haddsub Hmuldiv in
  let fix all (l : list Expr) : Forall P l :=
    match l with
    | [] => Forall_nil P
    | x :: l' => Forall_cons x (rec x) (all l')
    end in
  match e with
  | Lit lit => Hlit lit
  | Sym sym sp => Hsym sym sp
  | FuncCall f sp args => Hcall f sp args (all args)
  | AddSub ps ns => Haddsub ps ns (all ps) (all ns)
  | MulDiv ns ds => Hmuldiv ns ds (all ns) (all ds)
  end.

(** Induction on statements with the nested statement lists of [Do]. *)
Fixpoint Statement_ind' (P : Statement -> Prop)
    (Hcall : forall f args, P (ProcCall f args))
    (Hdo : forall stmts, Forall P stmts -> P (Do stmts))
    (Hif : forall c t f, P t -> P f -> P (IfElse c t f))
    (Hrepeat : forall n b, P b -> P (Repeat n b))
    (Hforever : forall b, P b -> P (Forever b))
    (Huntil : forall c b, P b -> P (Until c b))
    (Hwhile : forall c b, P b -> P (While c b))
    (Hfor : forall x n b, P b -> P (For x n b))
    (s : Statement) {struct s} : P s :=
  let rec := Statement_ind' P Hcall Hdo Hif Hrepeat Hforever Huntil Hwhile Hfor in
  let fix all (l : list Statement) : Forall P l :=
    match l with
    | [] => Forall_nil P
    | x :: l' => Forall_cons x (rec x) (all l')
    end in
  match s with
  | ProcCall f args => Hcall f args
  | Do stmts => Hdo stmts (all stmts)
  | IfElse c t f => Hif c t f (rec t) (rec f)
  | Repeat n b => Hrepeat n b (rec b)
  | Forever b => Hforever b (rec b)
  | Until c b => Huntil c b (rec b)
  | While c b => Hwhile c b (rec b)
  | For x n b => Hfor x n b (rec b)
  end.

(** [m], when it succeeds, leaves the entry points as they were and only
    appends to the text. *)
Definition grows {A} (m : M A) : Prop :=
  forall st a st', m st = Ok a st' ->
  entry_points st' = entry_points st /\ exists c, text st' = text st ++ c.

(** [m], when it succeeds, keeps the entry points, parameters, variables
    and lists, does not move the uid counter back, and only appends to the
    text. *)
Definition only_appends {A} (m : M A) : Prop :=
  forall st a st', m st = Ok a st' ->
  entry_points st' = entry_points st /\ proc_params st' = proc_params st /\
  vars st' = vars st /\ lists st' = lists st /\
  (uid_generator st <= uid_generator st')%N /\ exists c, text st' = text st ++ c.

(** Every result of [m] satisfies [P]. *)
Definition yields {A} (P : A -> Prop) (m : M A) : Prop :=
  forall st a st', m st = Ok a st' -> P a.

(** The representation each branch of [X86_64Expr.generate_expr] returns,
    read off its [Ok(Typ::..)] results and pass-through arms; [None] for
    the names it rejects or leaves [todo!()]. *)
Fixpoint expr_typ (e : Expr) : option Typ.t :=
  match e with
  | Lit (Value.Num _) => Some Typ.Double
  | Lit (Value.String _) => Some Typ.StaticStr
  | Lit (Value.Bool _) => Some Typ.Bool
  | Sym _ _ => Some Typ.Any
  | FuncCall f _ args =>
      if String.eqb f "!!" then Some Typ.Any
      else if String.eqb f "++" then
        match args with
        | [] => Some Typ.StaticStr
        | [single] => expr_typ single
        | _ => Some Typ.OwnedString
        end
      else if String.eqb f "and" || String.eqb f "or" then
        match args with
        | [single] => expr_typ single
        | _ => Some Typ.Bool
        end
      else if String.eqb f "not" then Some Typ.Bool
      else if String.eqb f "<" || String.eqb f "=" || String.eqb f ">" then Some Typ.Bool
      else if String.eqb f "length" then Some Typ.Double
      else if String.eqb f "str-length" then Some Typ.Double
      else if String.eqb f "char-at" then Some Typ.OwnedString
      else if existsb (String.eqb f)
                ["mod"; "abs"; "floor"; "ceil"; "sqrt"; "ln"; "log"; "e^"; "ten^";
                 "sin"; "cos"; "tan"; "asin"; "acos"; "atan"] then Some Typ.Double
      else if String.eqb f "pressing-key" then None
      else if String.eqb f "to-num" then Some Typ.Double
      else None
  | AddSub _ _ | MulDiv _ _ => Some Typ.Double
  end.

(** The accumulator after folding the terms [xs] into [acc] with [op]
    ([acc_step_rev]: the accumulator is the left operand). *)
Fixpoint acc_fold_rev (op : string) (acc : Machine.sv) (xs : list Z) : Machine.sv :=
  match xs with
  | [] => acc
  | x :: xs' => acc_fold_rev op (Machine.SFop op acc (Machine.SNum x)) xs'
  end.

(** The label [intern_static_str s] returns in state [st]: the one the
    table already holds for this content, or else the next uid. *)
Definition static_str_label (s : string) (st : AsmProgram) : N :=
  match assoc s (static_strs st) with
  | Some uid => uid
  | None => uid_generator st
  end.

(** What running a literal's code, compiled in state [st], leaves in the
    registers ([generate_lit]); a string's label is the one it gets in
    [st]'s static string table. *)
Definition lit_loaded (lit : Value.t) (st : AsmProgram) (m : Machine.mstate) : Prop :=
  match lit with
  | Value.Num bits =>
      Machine.get_reg m "rax" = Machine.SNum bits /\
      Machine.get_reg m "xmm0" = Machine.SNum bits
  | Value.String s =>
      Machine.get_reg m "rax" = Machine.SAddr (LUid (static_str_label s st)) /\
      Machine.get_reg m "rdx" = Machine.SNum (Z.of_nat (String.length s))
  | Value.Bool b => Machine.get_reg m "rax" = Machine.SNum (if b then 1 else 0)%Z
  end.

(** The expressions [X86_64.generate_expr] compiles without [todo!()] or
    an error: literals, and [++] of one or two such operands. *)
Fixpoint legacy_supported (e : Expr) : bool :=
  match e with
  | Lit _ => true
  | FuncCall f _ args =>
      String.eqb f "++" &&
      match args with
      | [single] => legacy_supported single
      | [lhs; rhs] => legacy_supported lhs && legacy_supported rhs
      | _ => false
      end
  | Sym _ _ | AddSub _ _ | MulDiv _ _ => false
  end.

(** The two words [push_lit] leaves on the stack, top first; [u] is the
    uid of a string's static data. *)
Definition legacy_lit_words (lit : Value.t) (u : N) : list Machine.sv :=
  match lit with
  | Value.Num bits => [Machine.SNum 2; Machine.SNum bits]
  | Value.String s =>
      [Machine.SAddr (LUid u); Machine.SNum (Z.of_nat (String.length s))]
  | Value.Bool b => [Machine.SNum (if b then 1 else 0); Machine.SNum 0]
  end%Z.

(** Two start procedures, declared in this order, printing ["a"] and ["b"]. *)
Definition two_starts_program : Program :=
  mkProgram
    (mkSprite [("when-flag-clicked",
                [mkProcedure [] (ProcCall "print" [Lit (Value.String "a")]);
                 mkProcedure [] (ProcCall "print" [Lit (Value.String "b")])])])
    [].

Section StackDiscipline.

Lemma reserved_app a b : reserved (a ++ b) = (reserved a + reserved b)%Z.
Proof. induction a as [|i a IH]; simpl; [reflexivity | rewrite IH; lia]. Qed.

Lemma eff_ret {A} b (x : A) b' d : b' = b -> d = 0%Z -> eff_from b (ret x) b' d.
Proof.
  intros -> -> st a st' Hb E; injection E as <- <-.
  split; [assumption | exists []; rewrite app_nil_r; split; reflexivity].
Qed.

Lemma eff_emit b c b' d : b' = b -> reserved c = d -> eff_from b (emit c) b' d.
Proof.
  intros -> <- st a st' Hb E; injection E as <- <-.
  split; [assumption | exists c; split; reflexivity].
Qed.

Lemma eff_bind {A B} b (m : M A) (k : A -> M B) b1 b2 d1 d2 d :
  eff_from b m b1 d1 -> (forall a, eff_from b1 (k a) b2 d2) ->
  d = (d1 + d2)%Z -> eff_from b (bind m k) b2 d.
Proof.
  intros Hm Hk -> st a st' Hb E; unfold bind in E.
  destruct (m st) as [x s1|e s1|] eqn:Em; try discriminate.
  destruct (Hm _ _ _ Hb Em) as [Hb1 [c1 [Ht1 Hr1]]].
  destruct (Hk x _ _ _ Hb1 E) as [Hb2 [c2 [Ht2 Hr2]]].
  split; [assumption|].
  exists (c1 ++ c2); split.
  - rewrite Ht2, Ht1, app_assoc; reflexivity.
  - rewrite reserved_app; lia.
Qed.

Lemma eff_fail {A} b e b' d : eff_from b (@fail A e) b' d.
Proof. intros st a st' _ E; discriminate. Qed.

Lemma eff_panic {A} b b' d : eff_from b (@panic A) b' d.
Proof. intros st a st' _ E; discriminate. Qed.

Lemma eff_get {B} b (k : bool -> M B) b' d :
  eff_from b (k b) b' d -> eff_from b (bind get_aligned k) b' d.
Proof.
  intros H st a st' Hb E; unfold bind, get_aligned, gets in E.
  rewrite Hb in E; exact (H _ _ _ Hb E).
Qed.

Lemma eff_gets {A B} (f : AsmProgram -> A) (k : A -> M B) b b' d :
  (forall x, eff_from b (k x) b' d) -> eff_from b (bind (gets f) k) b' d.
Proof. intros H st a st' Hb E; exact (H (f st) _ _ _ Hb E). Qed.

Lemma eff_put b x b' d : b' = x -> d = 0%Z -> eff_from b (put_aligned x) b' d.
Proof.
  intros -> -> st a st' Hb E; injection E as <- <-.
  split; [reflexivity | exists []; rewrite app_nil_r; split; reflexivity].
Qed.

Lemma eff_toggle b b' d : b' = negb b -> d = 0%Z -> eff_from b toggle_aligned b' d.
Proof.
  intros -> -> st a st' Hb E; injection E as <- <-; simpl.
  split; [rewrite Hb; destruct b; reflexivity
         | exists []; rewrite app_nil_r; split; reflexivity].
Qed.

Lemma eff_aligning_call b f b' d :
  b' = b -> d = reserved [call f] -> eff_from b (aligning_call f) b' d.
Proof.
  intros -> -> st a st' Hb E; unfold aligning_call in E.
  subst b; destruct (stack_aligned st) eqn:Ha.
  - exact (eff_emit _ _ _ _ eq_refl eq_refl st a st' Ha E).
  - refine (eff_emit _ _ _ _ eq_refl _ st a st' Ha E).
    cbn [reserved fold_right].
    change (reserved_by (Ins "sub" [rsp; Imm 8])) with 8%Z.
    change (reserved_by (Ins "add" [rsp; Imm 8])) with (-8)%Z.
    lia.
Qed.

Lemma eff_new_uid b b' d : b' = b -> d = 0%Z -> eff_from b new_uid b' d.
Proof.
  intros -> -> st a st' Hb E; injection E as <- <-.
  split; [assumption | exists []; rewrite app_nil_r; split; reflexivity].
Qed.

Lemma eff_intern_static_str b s b' d :
  b' = b -> d = 0%Z -> eff_from b (intern_static_str s) b' d.
Proof.
  intros -> -> st a st' Hb E; unfold intern_static_str, bind, gets, ret, new_uid in E.
  destruct (assoc s (static_strs st)); injection E as <- <-;
    (split; [assumption | exists []; rewrite app_nil_r; split; reflexivity]).
Qed.

Lemma eff_lookup_var b s b' d : b' = b -> d = 0%Z -> eff_from b (lookup_var s) b' d.
Proof.
  intros -> -> st a st' Hb E; injection E as <- <-.
  split; [assumption | exists []; rewrite app_nil_r; split; reflexivity].
Qed.

Lemma eff_lookup_list b s sp b' d : b' = b -> d = 0%Z -> eff_from b (lookup_list s sp) b' d.
Proof.
  intros -> -> st a st' Hb E; unfold lookup_list in E.
  destruct (assoc s (lists st)); [injection E as <- <- | discriminate].
  split; [assumption | exists []; rewrite app_nil_r; split; reflexivity].
Qed.

Lemma eff_foreach {A} (l : list A) f b :
  (forall x, In x l -> eff_from b (f x) b 0%Z) -> eff_from b (foreach l f) b 0%Z.
Proof.
  induction l as [|x l IH]; intros H; simpl.
  - apply eff_ret; reflexivity.
  - eapply eff_bind; [apply H; left; reflexivity | intros _; apply IH | reflexivity].
    intros y Hy; apply H; right; exact Hy.
Qed.

End StackDiscipline.

Section ClosedGenerator.

Lemma split_last_app {A} (l rest : list A) x :
  split_last l = Some (rest, x) -> l = rest ++ [x].
Proof.
  revert rest x; induction l as [|y l IH]; intros rest x H; [discriminate|].
  destruct l as [|z l].
  - injection H as <- <-; reflexivity.
  - change (match split_last (z :: l) with
            | Some (r, w) => Some (y :: r, w) | None => None end = Some (rest, x)) in H.
    destruct (split_last (z :: l)) as [[r w]|] eqn:E; [|discriminate].
    injection H as <- <-; rewrite (IH r w eq_refl); reflexivity.
Qed.

Ltac eff_step :=
  match goal with
  | H : closed ?m |- eff_from ?b ?m _ _ => apply (H b)
  | |- eff_from _ (bind get_aligned _) _ _ => apply eff_get
  | |- eff_from _ (bind (gets _) _) _ _ => apply eff_gets; intro
  | |- eff_from _ (bind _ _) _ _ => eapply eff_bind; [ | intro | ]
  | |- eff_from _ (emit _) _ _ => apply eff_emit; try reflexivity
  | |- eff_from _ (ret _) _ _ => apply eff_ret; try reflexivity
  | |- eff_from _ toggle_aligned _ _ => apply eff_toggle; try reflexivity
  | |- eff_from _ (put_aligned _) _ _ => apply eff_put; try reflexivity
  | |- eff_from _ (fail _) _ _ => apply eff_fail
  | |- eff_from _ panic _ _ => apply eff_panic
  | |- eff_from _ (aligning_call _) _ _ => apply eff_aligning_call; try reflexivity
  | |- eff_from _ new_uid _ _ => apply eff_new_uid; try reflexivity
  | |- eff_from _ (lookup_var _) _ _ => apply eff_lookup_var; try reflexivity
  | |- eff_from _ (lookup_list _ _) _ _ => apply eff_lookup_list; try reflexivity
  | |- eff_from _ (intern_static_str _) _ _ => apply eff_intern_static_str; try reflexivity
  | |- eff_from _ (generate_lit _) _ _ => unfold generate_lit
  | |- eff_from _ (match ?s with _ => _ end) _ _ =>
      let l := lazymatch s with split_last ?l => l end in
      let E := fresh "E" in
      destruct s as [[?rest ?last]|] eqn:E;
      [ apply split_last_app in E;
        match goal with H : Forall ?P l |- _ =>
          rewrite E in H; apply Forall_app in H; destruct H as [? H];
          apply Forall_cons_iff in H; destruct H end
      | ]; cbv beta iota
  | |- eff_from _ (match ?x with _ => _ end) _ _ =>
      lazymatch x with
      | true => progress cbv beta iota
      | false => progress cbv beta iota
      | _ => tryif is_evar x then fail else (destruct x; cbv beta iota)
      end
  end.

Ltac eff_close :=
  first [ reflexivity
        | match goal with b : bool |- _ => destruct b; reflexivity end
        | repeat match goal with |- context [if ?c then _ else _] => destruct c end;
          cbv; reflexivity ].

Lemma closed_generate_lit lit : closed (generate_lit lit).
Proof. intros b; repeat eff_step; eff_close. Qed.

Lemma closed_generate_bool_expr m b : closed m -> eff_from b (generate_bool_expr m) b 0%Z.
Proof. intros Hm; unfold generate_bool_expr; repeat eff_step; eff_close. Qed.

Lemma closed_generate_double_expr m b : closed m -> eff_from b (generate_double_expr m) b 0%Z.
Proof. intros Hm; unfold generate_double_expr; repeat eff_step; eff_close. Qed.

Lemma closed_generate_cow_expr m b : closed m -> eff_from b (generate_cow_expr m) b 0%Z.
Proof. intros Hm; unfold generate_cow_expr; repeat eff_step; eff_close. Qed.

Lemma closed_generate_any_expr m b : closed m -> eff_from b (generate_any_expr m) b 0%Z.
Proof. intros Hm; unfold generate_any_expr; repeat eff_step; eff_close. Qed.

Ltac solve_closed :=
  first
    [ assumption
    | match goal with
      | Hx : In _ (_ :: _) |- _ => destruct Hx as [<-|Hx]; solve_closed
      | Hx : In _ [] |- _ => destruct Hx
      end
    | match goal with
      | H : Forall ?P ?l, Hx : In ?x ?l |- _ =>
          exact (proj1 (Forall_forall P l) H x Hx)
      | H : Forall ?P ?l, Hx : In ?x (rev ?l) |- _ =>
          exact (proj1 (Forall_forall P l) H x (proj2 (in_rev l x) Hx))
      end
    | match goal with
      | H : Forall ?P ?l |- _ => apply (proj1 (Forall_forall P l) H); simpl; tauto
      end ].

Lemma closed_generate_comparison o lhs rhs :
  closed lhs -> closed rhs -> closed (generate_comparison o lhs rhs).
Proof.
  intros Hl Hr b; unfold generate_comparison.
  destruct o; repeat eff_step; eff_close.
Qed.

Ltac eff_step_full :=
  match goal with
  | |- eff_from _ (generate_bool_expr _) _ _ => apply closed_generate_bool_expr; solve_closed
  | |- eff_from _ (generate_double_expr _) _ _ => apply closed_generate_double_expr; solve_closed
  | |- eff_from _ (generate_cow_expr _) _ _ => apply closed_generate_cow_expr; solve_closed
  | |- eff_from _ (generate_any_expr _) _ _ => apply closed_generate_any_expr; solve_closed
  | |- eff_from _ (foreach _ _) _ _ => apply eff_foreach; intros ? ?
  | |- eff_from _ (generate_comparison _ _ _) _ _ =>
      apply closed_generate_comparison; solve_closed
  | |- eff_from ?b (snd ?a) _ _ =>
      let H := fresh "H" in assert (H : closed (snd a)) by solve_closed; apply (H b)
  | _ => eff_step
  end.

Lemma closed_generate_symbol sym sp : closed (generate_symbol sym sp).
Proof. intros b; unfold generate_symbol; repeat eff_step_full; eff_close. Qed.


Lemma closed_generate_add_sub ps ns :
  Forall closed ps -> Forall closed ns -> closed (generate_add_sub ps ns).
Proof.
  intros Hp Hn b; unfold generate_add_sub.
  destruct ps as [|p ps]; destruct ns as [|n ns]; repeat eff_step_full; eff_close.
Qed.

Lemma closed_generate_mul_div ns ds :
  Forall closed ns -> Forall closed ds -> closed (generate_mul_div ns ds).
Proof.
  intros Hn Hd b; unfold generate_mul_div.
  destruct ns as [|n ns]; destruct ds as [|d ds]; repeat eff_step_full; eff_close.
Qed.

Lemma closed_generate_func_call f args sp :
  Forall (fun a => closed (snd a)) args -> closed (generate_func_call f args sp).
Proof.
  intros Hall b; destruct b; unfold generate_func_call; cbv beta zeta.
  all: repeat (match goal with
               | |- eff_from _ (if ?c then _ else _) _ _ => destruct c; cbv beta iota
               end).
  all: repeat eff_step_full; eff_close.
Qed.

End ClosedGenerator.

Lemma closed_generate_expr e : closed (generate_expr e).
Proof.
  induction e as [lit|sym sp|f sp args IH|ps ns IHp IHn|ns ds IHn IHd]
    using Expr_ind'; cbn [generate_expr].
  - apply closed_generate_lit.
  - apply closed_generate_symbol.
  - apply closed_generate_func_call, Forall_map; exact IH.
  - apply closed_generate_add_sub; apply Forall_map; assumption.
  - apply closed_generate_mul_div; apply Forall_map; assumption.
Qed.

(** C1: compiling any expression with [generate_expr] leaves the
    stack-alignment flag as it found it, and the code it appends releases
    every byte of stack it reserves (pushes and [sub rsp] are balanced by
    pops, [add rsp] and the cow releases), so the net reservation is zero. *)
Theorem generate_expr_stack_closed e st t st' :
  generate_expr e st = Ok t st' ->
  stack_aligned st' = stack_aligned st /\
  exists code, text st' = text st ++ code /\ reserved code = 0%Z.
Proof.
  intros H; exact (closed_generate_expr e (stack_aligned st) st t st' eq_refl H).
Qed.

Lemma generate_expr_stack_closed_witness :
  exists t st',
    generate_expr (FuncCall "++" sample_span [str_lit "ab"; str_lit "cd"])
      (sample_state false) = Ok t st' /\
    stack_aligned st' = false /\
    exists code, text st' = text (sample_state false) ++ code /\ reserved code = 0%Z.
Proof.
  destruct (generate_expr (FuncCall "++" sample_span [str_lit "ab"; str_lit "cd"])
              (sample_state false)) as [t st'|err st'|] eqn:E;
    [| vm_compute in E; discriminate | vm_compute in E; discriminate].
  exists t, st'; split; [reflexivity|].
  exact (generate_expr_stack_closed _ (sample_state false) t st' E).
Defined.

Section ArithmeticRuns.

Lemma set_text_text st : set_text st (text st) = st.
Proof. destruct st; reflexivity. Qed.

Lemma appends_emit c : appends c (emit c).
Proof. intros st; exists (stack_aligned st); destruct st; reflexivity. Qed.

Lemma appends_ret : appends [] (ret tt).
Proof.
  intros st; exists (stack_aligned st); destruct st; cbn; rewrite app_nil_r; reflexivity.
Qed.

Lemma appends_toggle : appends [] toggle_aligned.
Proof.
  intros st; exists (xorb (stack_aligned st) true); destruct st; cbn.
  rewrite app_nil_r; reflexivity.
Qed.

Lemma appends_seq c1 c2 c m1 m2 :
  appends c1 m1 -> appends c2 m2 -> c = c1 ++ c2 -> appends c (m1 ;; m2).
Proof.
  intros H1 H2 -> st; destruct (H1 st) as [b1 E1]; unfold bind; rewrite E1.
  destruct (H2 (set_aligned (set_text st (text st ++ c1)) b1)) as [b2 E2].
  exists b2; rewrite E2; destruct st; cbn; rewrite app_assoc; reflexivity.
Qed.

Lemma appends_code c' c m : appends c' m -> c' = c -> appends c m.
Proof. intros H ->; exact H. Qed.

Lemma appends_foreach {A} (xs : list A) f code :
  (forall x, appends (code x) (f x)) -> appends (flat_map code xs) (foreach xs f).
Proof.
  intros H; induction xs as [|x xs IH]; cbn [foreach flat_map].
  - apply appends_ret.
  - eapply appends_seq; [apply H | exact IH | reflexivity].
Qed.

Lemma foreach_map {A B} (g : A -> B) xs f :
  foreach (map g xs) f = foreach xs (fun x => f (g x)).
Proof. induction xs as [|x xs IH]; cbn; [reflexivity | rewrite IH; reflexivity]. Qed.

Lemma appends_num x : appends (load_num x) (generate_double_expr (generate_expr (num_lit x))).
Proof. intros st; exists (stack_aligned st); destruct st; reflexivity. Qed.

Lemma appends_then_ret c m (t : Typ.t) st :
  appends c m -> exists st', (m ;; ret t) st = Ok t st' /\ text st' = text st ++ c.
Proof.
  intros H; destruct (H st) as [b E]; eexists; unfold bind; rewrite E.
  split; [reflexivity | destruct st; reflexivity].
Qed.

Lemma exec_app c1 c2 m :
  Machine.exec (c1 ++ c2) m =
  match Machine.exec c1 m with Some m' => Machine.exec c2 m' | None => None end.
Proof.
  revert m; induction c1 as [|i c1 IH]; intros m; cbn; [reflexivity|].
  destruct (Machine.exec1 i m); [apply IH | reflexivity].
Qed.

Lemma exec_acc_steps op xs :
  op = "addsd" \/ op = "mulsd" ->
  forall m acc s, Machine.skipping m = None -> Machine.stk m = acc :: s ->
  exists m', Machine.exec (flat_map (fun y => load_num y ++ acc_step op) xs) m = Some m' /\
    Machine.skipping m' = None /\ Machine.stk m' = acc_fold op acc xs :: s.
Proof.
  intros Hop; induction xs as [|y xs IH]; intros m acc s Hk Hs.
  - exists m; auto.
  - cbn [flat_map]; rewrite exec_app.
    destruct m as [r st c z k]; cbn in Hk, Hs; subst.
    destruct Hop as [-> | ->]; cbn; apply IH; reflexivity.
Qed.

Ltac run_appends :=
  repeat first
    [ apply appends_num | apply appends_emit | apply appends_toggle | apply appends_ret
    | rewrite !foreach_map; apply appends_foreach; intros ?
    | eapply appends_seq; [ | | reflexivity ] ].

Lemma compiles_add_sub_neg x xs st :
  compiles_to (AddSub [] (map num_lit (x :: xs))) st Typ.Double
    (load_num x ++ acc_push ++ flat_map (fun y => load_num y ++ acc_step "addsd") xs
     ++ negate_acc).
Proof.
  unfold compiles_to; cbn [generate_expr map]; unfold generate_add_sub.
  apply appends_then_ret; eapply appends_code; [run_appends|].
  cbn [app]; rewrite app_nil_r; reflexivity.
Qed.

Lemma compiles_mul_div_den x xs st :
  compiles_to (MulDiv [] (map num_lit (x :: xs))) st Typ.Double
    (load_num x ++ acc_push ++ flat_map (fun y => load_num y ++ acc_step "mulsd") xs
     ++ reciprocal_acc).
Proof.
  unfold compiles_to; cbn [generate_expr map]; unfold generate_mul_div.
  apply appends_then_ret; eapply appends_code; [run_appends|].
  cbn [app]; rewrite app_nil_r; reflexivity.
Qed.

Lemma compiles_add_sub_single x st :
  compiles_to (AddSub [num_lit x] []) st Typ.Double (load_num x ++ acc_push ++ acc_pop).
Proof.
  unfold compiles_to; cbn [generate_expr map]; unfold generate_add_sub.
  apply appends_then_ret; eapply appends_code; [run_appends|].
  cbn [app]; rewrite app_nil_r; reflexivity.
Qed.

Lemma compiles_add_sub_empty st :
  compiles_to (AddSub [] []) st Typ.Double [Ins "xorpd" [xmm0; xmm0]].
Proof.
  unfold compiles_to; cbn [generate_expr map]; unfold generate_add_sub.
  apply appends_then_ret, appends_emit.
Qed.

Lemma compiles_mul_div_empty st :
  compiles_to (MulDiv [] []) st Typ.Double (load_num f64_one).
Proof.
  unfold compiles_to; cbn [generate_expr map]; unfold generate_mul_div.
  apply appends_then_ret; intros st0; exists (stack_aligned st0); destruct st0; reflexivity.
Qed.

Lemma acc_prefix_run x :
  Machine.exec (load_num x ++ acc_push) Machine.init = Some (acc_prefix_state x).
Proof. reflexivity. Qed.

Lemma runs_add_sub_neg x xs :
  runs_to (load_num x ++ acc_push ++ flat_map (fun y => load_num y ++ acc_step "addsd") xs
           ++ negate_acc) "xmm0"
    (Machine.sxor (acc_fold "addsd" (Machine.SNum x) xs) (Machine.SNum sign_mask)).
Proof.
  unfold runs_to; rewrite app_assoc, exec_app, (acc_prefix_run x), exec_app.
  destruct (exec_acc_steps "addsd" xs (or_introl eq_refl) (acc_prefix_state x)
              (Machine.SNum x) [] eq_refl eq_refl) as (m' & E & Hk & Hs).
  rewrite E; destruct m' as [r st c z k]; cbn in Hk, Hs; subst.
  eexists; split; reflexivity.
Qed.

Lemma runs_mul_div_den x xs :
  runs_to (load_num x ++ acc_push ++ flat_map (fun y => load_num y ++ acc_step "mulsd") xs
           ++ reciprocal_acc) "xmm0"
    (Machine.SFop "divsd" (Machine.SNum f64_one) (acc_fold "mulsd" (Machine.SNum x) xs)).
Proof.
  unfold runs_to; rewrite app_assoc, exec_app, (acc_prefix_run x), exec_app.
  destruct (exec_acc_steps "mulsd" xs (or_intror eq_refl) (acc_prefix_state x)
              (Machine.SNum x) [] eq_refl eq_refl) as (m' & E & Hk & Hs).
  rewrite E; destruct m' as [r st c z k]; cbn in Hk, Hs; subst.
  eexists; split; reflexivity.
Qed.

Lemma runs_add_sub_single x :
  runs_to (load_num x ++ acc_push ++ acc_pop) "xmm0" (Machine.SNum x).
Proof. eexists; split; reflexivity. Qed.

End ArithmeticRuns.

(** C2: the degenerate n-ary arithmetic cases.  [(+)] with no operands
    compiles to [xorpd xmm0, xmm0] and yields 0.0 (bit pattern 0); [( * )]
    yields the literal 1.0; [(+ x)] yields [x] unchanged; an [AddSub] with
    only negative literal operands [x, xs...] sums them into the stack
    accumulator and flips the sign bit of the sum; a [MulDiv] with only
    denominators yields 1.0 divided by their accumulated product; and
    [(- 5)] yields -5.0.  All of these compile to a [Double]. *)
Theorem arithmetic_degenerate_cases :
  (forall st, exists c,
     compiles_to (AddSub [] []) st Typ.Double c /\ runs_to c "xmm0" (Machine.SNum 0)) /\
  (forall st, exists c,
     compiles_to (MulDiv [] []) st Typ.Double c /\ runs_to c "xmm0" (Machine.SNum f64_one)) /\
  (forall x st, exists c,
     compiles_to (AddSub [num_lit x] []) st Typ.Double c /\
     runs_to c "xmm0" (Machine.SNum x)) /\
  (forall x xs st, exists c,
     compiles_to (AddSub [] (map num_lit (x :: xs))) st Typ.Double c /\
     runs_to c "xmm0"
       (Machine.sxor (acc_fold "addsd" (Machine.SNum x) xs) (Machine.SNum sign_mask))) /\
  (forall x xs st, exists c,
     compiles_to (MulDiv [] (map num_lit (x :: xs))) st Typ.Double c /\
     runs_to c "xmm0"
       (Machine.SFop "divsd" (Machine.SNum f64_one) (acc_fold "mulsd" (Machine.SNum x) xs))) /\
  (forall st, exists c,
     compiles_to (AddSub [] [num_lit f64_five]) st Typ.Double c /\
     runs_to c "xmm0" (Machine.SNum f64_neg_five)).
Proof.
  split; [|split; [|split; [|split; [|split]]]].
  - intros st; eexists; split; [apply compiles_add_sub_empty | eexists; split; reflexivity].
  - intros st; eexists; split; [apply compiles_mul_div_empty | eexists; split; reflexivity].
  - intros x st; eexists; split; [apply compiles_add_sub_single | apply runs_add_sub_single].
  - intros x xs st; eexists; split; [apply compiles_add_sub_neg | apply runs_add_sub_neg].
  - intros x xs st; eexists; split; [apply compiles_mul_div_den | apply runs_mul_div_den].
  - intros st; eexists; split;
      [apply (compiles_add_sub_neg f64_five []) | exact (runs_add_sub_neg f64_five [])].
Qed.

(** C3: a [>] comparison is compiled exactly as the [<] comparison with
    swapped operands: for all operands [a], [b], the two generators are
    the same action, so they emit the same instructions (and report the
    same result) from every state. *)
Theorem greater_is_swapped_less a b sp :
  generate_expr (FuncCall ">" sp [a; b]) = generate_expr (FuncCall "<" sp [b; a]).
Proof. reflexivity. Qed.

Section ShortCircuit.

Lemma split_last_snoc {A} (l : list A) x : split_last (l ++ [x]) = Some (l, x).
Proof.
  induction l as [|y l IH]; [reflexivity|].
  destruct l as [|z l]; [reflexivity|].
  cbn [app] in IH |- *.
  change (split_last (y :: z :: l ++ [x])) with
    (match split_last (z :: l ++ [x]) with
     | Some (r, w) => Some (y :: r, w) | None => None end).
  rewrite IH; reflexivity.
Qed.

Lemma gives_ret {A} (t : A) : gives (ret t) t [].
Proof. intros st; exists st; split; [reflexivity | rewrite app_nil_r; reflexivity]. Qed.

Lemma gives_seq {A} c1 c2 c m1 (m2 : M A) t :
  appends c1 m1 -> gives m2 t c2 -> c = c1 ++ c2 -> gives (m1 ;; m2) t c.
Proof.
  intros H1 H2 -> st; destruct (H1 st) as [b1 E1]; unfold bind; rewrite E1.
  destruct (H2 (set_aligned (set_text st (text st ++ c1)) b1)) as (st' & E2 & T2).
  exists st'; rewrite E2, T2; split; [reflexivity | rewrite app_assoc; reflexivity].
Qed.

Lemma appends_bool b : appends (bool_code b) (generate_bool_expr (generate_expr (bool_lit b))).
Proof. intros st; exists (stack_aligned st); destruct b, st; reflexivity. Qed.

Lemma map_snoc {A B} (h : A -> B) l y : map h (l ++ [y]) = map h l ++ [h y].
Proof. apply map_app. Qed.

(** The [and] / [or] branch of [generate_func_call] on two or more
    operands. *)
Lemma func_call_short_circuit f l y sp :
  f = "and" \/ f = "or" -> l <> [] ->
  generate_func_call f (l ++ [y]) sp =
  (short_circuit <- new_uid ;;
   foreach l (fun arg =>
     generate_bool_expr (snd arg) ;;
     emit [Ins "test" [rax; rax];
           Ins (if String.eqb f "and" then "jz" else "jnz") [Ref (LLocal short_circuit)]]) ;;
   generate_bool_expr (snd y) ;;
   emit [Label (LLocal short_circuit)] ;;
   ret Typ.Bool).
Proof.
  intros Hf Hl; destruct l as [|x rest]; [congruence|].
  pose proof (split_last_snoc (x :: rest) y) as Hs.
  destruct rest as [|r rest]; [destruct Hf as [-> | ->]; reflexivity|].
  unfold generate_func_call; rewrite Hs; destruct Hf as [-> | ->]; reflexivity.
Qed.

Lemma new_uid_then {A} (k : N -> M A) t st c :
  gives (k (uid_generator st)) t c ->
  exists st', (x <- new_uid ;; k x) st = Ok t st' /\ text st' = text st ++ c.
Proof.
  intros H; destruct (H (set_uid st (uid_generator st + 1))) as (st' & E & T).
  exists st'; split; [exact E | rewrite T; reflexivity].
Qed.

Lemma compiles_and_or f sp b bs last st :
  f = "and" \/ f = "or" ->
  compiles_to (FuncCall f sp (map bool_lit (b :: bs ++ [last]))) st Typ.Bool
    (flat_map (fun x => bool_code x ++
                 [Ins "test" [rax; rax];
                  Ins (if String.eqb f "and" then "jz" else "jnz")
                    [Ref (LLocal (uid_generator st))]]) (b :: bs)
     ++ bool_code last ++ [Label (LLocal (uid_generator st))]).
Proof.
  intros Hf; unfold compiles_to; cbn [generate_expr].
  change (b :: bs ++ [last]) with ((b :: bs) ++ [last]).
  rewrite map_map, map_snoc, func_call_short_circuit by (assumption || discriminate).
  apply new_uid_then; rewrite foreach_map.
  eapply gives_seq; [apply appends_foreach; intros x; eapply appends_seq;
                      [apply appends_bool | apply appends_emit | reflexivity] | |].
  - eapply gives_seq; [apply appends_bool | |].
    + eapply gives_seq; [apply appends_emit | apply gives_ret | reflexivity].
    + reflexivity.
  - rewrite app_nil_r; reflexivity.
Qed.

Lemma exec_skip c : forall m l,
  Machine.skipping m = Some l -> Forall (fun i => exists op args, i = Ins op args) c ->
  Machine.exec c m = Some m.
Proof.
  induction c as [|i c IH]; intros m l Hk Hc; [reflexivity|].
  inversion Hc as [|? ? [op [args ->]] Hc']; subst.
  cbn [Machine.exec]; unfold Machine.exec1; rewrite Hk; exact (IH m l Hk Hc').
Qed.

Ltac only_ins :=
  repeat first [ apply Forall_nil | apply Forall_cons; [do 2 eexists; reflexivity|] ].

Lemma short_circuit_code_ins j L bs last :
  Forall (fun i => exists op args, i = Ins op args)
    (flat_map (fun x => bool_code x ++ [Ins "test" [rax; rax]; Ins j [Ref (LLocal L)]]) bs
     ++ bool_code last).
Proof.
  apply Forall_app; split; [|destruct last; only_ins].
  induction bs as [|x bs IH]; cbn [flat_map]; [only_ins|].
  apply Forall_app; split; [destruct x; only_ins | exact IH].
Qed.

Lemma run_short_circuit (is_and : bool) L bs last : forall m,
  Machine.skipping m = None ->
  exists m',
    Machine.exec
      (flat_map (fun x => bool_code x ++
                   [Ins "test" [rax; rax];
                    Ins (if is_and then "jz" else "jnz") [Ref (LLocal L)]]) bs
       ++ bool_code last ++ [Label (LLocal L)]) m = Some m' /\
    Machine.get_reg m' "rax" =
      Machine.SNum (if (if is_and then forallb (fun x => x) (bs ++ [last])
                        else existsb (fun x => x) (bs ++ [last])) then 1 else 0).
Proof.
  induction bs as [|x bs IH]; intros m Hk.
  - destruct m as [r st c z k]; cbn in Hk; subst.
    destruct last, is_and; eexists; split; reflexivity.
  - cbn [flat_map]; rewrite <- app_assoc, exec_app.
    destruct m as [r st c z k]; cbn in Hk; subst.
    destruct x, is_and; cbn -[flat_map].
    1, 4: apply IH; reflexivity.
    all: rewrite app_assoc, exec_app;
      erewrite exec_skip; [ | reflexivity | apply short_circuit_code_ins ];
      cbn; rewrite N.eqb_refl; eexists; split; reflexivity.
Qed.

End ShortCircuit.

(** C4: [and] / [or].  With no operand, [(and)] compiles as the literal
    [true] and [(or)] as [false]; with one operand, the operand's own code
    is the result; with two or more operands, one fresh local label is
    allocated, every operand but the last is compiled to [Bool] and
    followed by [test rax, rax] and a jump to that label ([jz] for [and],
    [jnz] for [or]), then the last operand is compiled to [Bool] and the
    label is placed.  Run on boolean literals, the code leaves in [rax] the
    conjunction (for [and]) or disjunction (for [or]) of all operands. *)
Theorem and_or_compilation :
  (forall sp,
     generate_expr (FuncCall "and" sp []) = generate_expr (bool_lit true) /\
     generate_expr (FuncCall "or" sp []) = generate_expr (bool_lit false)) /\
  (forall sp e,
     generate_expr (FuncCall "and" sp [e]) = generate_expr e /\
     generate_expr (FuncCall "or" sp [e]) = generate_expr e) /\
  (forall sp x rest y st,
     generate_expr (FuncCall "and" sp (x :: rest ++ [y])) st =
     (short_circuit <- new_uid ;;
      foreach (x :: rest) (fun a =>
        generate_bool_expr (generate_expr a) ;;
        emit [Ins "test" [rax; rax]; Ins "jz" [Ref (LLocal short_circuit)]]) ;;
      generate_bool_expr (generate_expr y) ;;
      emit [Label (LLocal short_circuit)] ;; ret Typ.Bool) st /\
     generate_expr (FuncCall "or" sp (x :: rest ++ [y])) st =
     (short_circuit <- new_uid ;;
      foreach (x :: rest) (fun a =>
        generate_bool_expr (generate_expr a) ;;
        emit [Ins "test" [rax; rax]; Ins "jnz" [Ref (LLocal short_circuit)]]) ;;
      generate_bool_expr (generate_expr y) ;;
      emit [Label (LLocal short_circuit)] ;; ret Typ.Bool) st) /\
  (forall sp b bs last st, exists c,
     compiles_to (FuncCall "and" sp (map bool_lit (b :: bs ++ [last]))) st Typ.Bool c /\
     runs_to c "rax"
       (Machine.SNum (if forallb (fun v => v) (b :: bs ++ [last]) then 1 else 0)%Z)) /\
  (forall sp b bs last st, exists c,
     compiles_to (FuncCall "or" sp (map bool_lit (b :: bs ++ [last]))) st Typ.Bool c /\
     runs_to c "rax"
       (Machine.SNum (if existsb (fun v => v) (b :: bs ++ [last]) then 1 else 0)%Z)).
Proof.
  split; [|split; [|split; [|split]]].
  - intros sp; split; reflexivity.
  - intros sp e; split; reflexivity.
  - intros sp x rest y st; cbn [generate_expr].
    change (x :: rest ++ [y]) with ((x :: rest) ++ [y]).
    rewrite map_snoc.
    split; rewrite func_call_short_circuit by (auto || discriminate);
      cbn [bind new_uid]; rewrite foreach_map; reflexivity.
  - intros sp b bs last st; eexists; split;
      [apply compiles_and_or; left; reflexivity
      | exact (run_short_circuit true _ (b :: bs) last Machine.init eq_refl)].
  - intros sp b bs last st; eexists; split;
      [apply compiles_and_or; right; reflexivity
      | exact (run_short_circuit false _ (b :: bs) last Machine.init eq_refl)].
Qed.

Section Concat.

(** The [++] branch of [generate_func_call] on two or more operands. *)
Lemma func_call_concat l y sp :
  l <> [] ->
  generate_func_call "++" (l ++ [y]) sp =
  (generate_cow_expr (snd y) ;;
   stack_was_aligned <- get_aligned ;;
   (if stack_was_aligned then ret tt else emit [sub_rsp 8]) ;;
   put_aligned true ;;
   foreach (rev l) (fun arg =>
     emit concat_pre ;; generate_cow_expr (snd arg) ;; emit concat_post) ;;
   (if stack_was_aligned then ret tt else emit [add_rsp 8]) ;;
   put_aligned stack_was_aligned ;;
   ret Typ.OwnedString).
Proof.
  intros Hl; destruct l as [|x rest]; [congruence|].
  pose proof (split_last_snoc (x :: rest) y) as Hs.
  destruct rest as [|r rest]; [reflexivity|].
  unfold generate_func_call; rewrite Hs; reflexivity.
Qed.

Lemma app_snoc5 {A} (l : list A) a b c d e :
  ((((l ++ [a]) ++ [b]) ++ [c]) ++ [d]) ++ [e] = l ++ [a; b; c; d; e].
Proof. rewrite <- !app_assoc; reflexivity. Qed.

Lemma exec_concat_pre r s cs z :
  Machine.exec concat_pre (Machine.mkM r s cs z None) =
  Some (Machine.mkM r
          (Machine.get_reg (Machine.mkM r s cs z None) "rax"
           :: Machine.get_reg (Machine.mkM r s cs z None) "rdx"
           :: Machine.SUndef
           :: Machine.get_reg (Machine.mkM r s cs z None) "rdx" :: s) cs z None).
Proof. reflexivity. Qed.

Lemma exec_concat_post bp bl si r ap al u t s cs z :
  let buf := Machine.SRet "malloc" (List.length cs) "rax" in
  exists m',
    Machine.exec concat_post
      (Machine.mkM (("rax", bp) :: ("rdx", bl) :: ("rsi", si) :: r)
                   (ap :: al :: u :: t :: s) cs z None) = Some m' /\
    Machine.stk m' = s /\ Machine.skipping m' = None /\
    Machine.get_reg m' "rax" = buf /\
    Machine.get_reg m' "rdx" = Machine.sadd t bl /\
    Machine.calls m' =
      cs ++ [("malloc", [Machine.sadd t bl; si; bl]);
             ("memcpy", [buf; bp; bl]);
             ("memcpy", [Machine.sadd buf bl; ap; al]);
             ("drop_pop_cow", [bp; bl]);
             ("drop_pop_cow", [ap; al])].
Proof.
  intros buf; cbv -[Machine.sadd app List.length].
  eexists; split; [reflexivity|].
  rewrite <- !app_assoc; repeat split; reflexivity.
Qed.

End Concat.

(** C5: [++].  With no operand the result is the empty static string
    ([rax] = address of [str_empty], [rdx] = 0, representation
    [StaticStr]); with one operand the operand's own code is the result;
    with two or more operands the last one is compiled first and the
    others are folded into it from right to left, each step pushing the
    accumulated string, compiling the next operand, and then: calling
    [malloc] with the sum of the two lengths, [memcpy] of the new operand
    to the start of the buffer and of the accumulated string after it,
    and two [drop_pop_cow] releasing both inputs; the buffer and the summed
    length become the new accumulator and the result is [OwnedString].
    Run on ["ab"], ["cd"], ["e"], the only buffer not released is the
    last one allocated, holding 5 bytes. *)
Theorem string_concat_compilation :
  (forall sp st,
     generate_expr (FuncCall "++" sp []) st =
     Ok Typ.StaticStr
        (set_text st (text st ++ [Ins "lea" [rax; Mem (LSym "str_empty") 0];
                                  Ins "xor" [edx; edx]])) /\
     runs_to [Ins "lea" [rax; Mem (LSym "str_empty") 0]; Ins "xor" [edx; edx]]
       "rdx" (Machine.SNum 0)) /\
  (forall sp e, generate_expr (FuncCall "++" sp [e]) = generate_expr e) /\
  (forall sp x rest y st,
     generate_expr (FuncCall "++" sp (x :: rest ++ [y])) st =
     (generate_cow_expr (generate_expr y) ;;
      stack_was_aligned <- get_aligned ;;
      (if stack_was_aligned then ret tt else emit [sub_rsp 8]) ;;
      put_aligned true ;;
      foreach (rev (x :: rest)) (fun a =>
        emit concat_pre ;; generate_cow_expr (generate_expr a) ;; emit concat_post) ;;
      (if stack_was_aligned then ret tt else emit [add_rsp 8]) ;;
      put_aligned stack_was_aligned ;;
      ret Typ.OwnedString) st) /\
  (forall r s cs z,
     Machine.exec concat_pre (Machine.mkM r s cs z None) =
     Some (Machine.mkM r
             (Machine.get_reg (Machine.mkM r s cs z None) "rax"
              :: Machine.get_reg (Machine.mkM r s cs z None) "rdx"
              :: Machine.SUndef
              :: Machine.get_reg (Machine.mkM r s cs z None) "rdx" :: s) cs z None)) /\
  (forall bp bl si r ap al u t s cs z,
     let buf := Machine.SRet "malloc" (List.length cs) "rax" in
     exists m',
       Machine.exec concat_post
         (Machine.mkM (("rax", bp) :: ("rdx", bl) :: ("rsi", si) :: r)
                      (ap :: al :: u :: t :: s) cs z None) = Some m' /\
       Machine.stk m' = s /\ Machine.skipping m' = None /\
       Machine.get_reg m' "rax" = buf /\
       Machine.get_reg m' "rdx" = Machine.sadd t bl /\
       Machine.calls m' =
         cs ++ [("malloc", [Machine.sadd t bl; si; bl]);
                ("memcpy", [buf; bp; bl]);
                ("memcpy", [Machine.sadd buf bl; ap; al]);
                ("drop_pop_cow", [bp; bl]);
                ("drop_pop_cow", [ap; al])]) /\
  (exists c,
     compiles_to (FuncCall "++" sample_span [str_lit "ab"; str_lit "cd"; str_lit "e"])
       (sample_state false) Typ.OwnedString c /\
     exists m,
       Machine.exec c Machine.init = Some m /\ Machine.stk m = [] /\
       Machine.get_reg m "rax" = Machine.SRet "malloc" 5 "rax" /\
       Machine.get_reg m "rdx" = Machine.SNum 5 /\
       Machine.calls m =
         [("malloc", [Machine.SNum 3; Machine.SUndef; Machine.SNum 2]);
          ("memcpy", [Machine.SRet "malloc" 0 "rax"; Machine.SAddr (LUid 1); Machine.SNum 2]);
          ("memcpy", [Machine.SAdd (Machine.SRet "malloc" 0 "rax") (Machine.SNum 2);
                      Machine.SAddr (LUid 0); Machine.SNum 1]);
          ("drop_pop_cow", [Machine.SAddr (LUid 1); Machine.SNum 2]);
          ("drop_pop_cow", [Machine.SAddr (LUid 0); Machine.SNum 1]);
          ("malloc", [Machine.SNum 5; Machine.SUndef; Machine.SNum 2]);
          ("memcpy", [Machine.SRet "malloc" 5 "rax"; Machine.SAddr (LUid 2); Machine.SNum 2]);
          ("memcpy", [Machine.SAdd (Machine.SRet "malloc" 5 "rax") (Machine.SNum 2);
                      Machine.SRet "malloc" 0 "rax"; Machine.SNum 3]);
          ("drop_pop_cow", [Machine.SAddr (LUid 2); Machine.SNum 2]);
          ("drop_pop_cow", [Machine.SRet "malloc" 0 "rax"; Machine.SNum 3])]).
Proof.
  split; [|split; [|split; [|split; [|split]]]].
  - intros sp st; split; [reflexivity|].
    eexists; split; reflexivity.
  - intros sp e; reflexivity.
  - intros sp x rest y st; cbn [generate_expr].
    change (x :: rest ++ [y]) with ((x :: rest) ++ [y]).
    rewrite map_snoc, func_call_concat by discriminate.
    rewrite <- map_rev, foreach_map; reflexivity.
  - exact exec_concat_pre.
  - exact exec_concat_post.
  - let r := eval vm_compute in
        (generate_expr (FuncCall "++" sample_span [str_lit "ab"; str_lit "cd"; str_lit "e"])
           (sample_state false)) in
    match r with
    | Ok _ ?st' =>
        exists (text st'); split;
        [exists st'; split; vm_compute; reflexivity|];
        let o := eval vm_compute in (Machine.exec (text st') Machine.init) in
        match o with
        | Some ?m => exists m; vm_compute; repeat split; reflexivity
        end
    end.
Qed.

Section Errors.

Lemma eqb_not_in (f : string) (l : list string) :
  ~ In f l -> forall g, In g l -> String.eqb f g = false.
Proof. intros Hf g Hg; apply String.eqb_neq; intros ->; contradiction. Qed.

End Errors.

(** C6, counterexample: an entry procedure with a parameter is not
    reported as an error value; [generate_proc] stops at its [assert!]. *)
Lemma malformed_entry_panics :
  X86_64.generate_proc (fun _ => EmptyString) "when-flag-clicked"
    (mkProcedure ["x"] (Do [])) empty_program = Panic.
Proof. reflexivity. Qed.

(** C6 (amended): in the expression generator, an unresolved symbol, an
    unresolved list of [!!] or [length], an unknown function name, and a
    wrong operand count for a function of fixed arity (the unary and binary
    functions, [!!] with two operands and [length] with one) are returned
    as [Err] values carrying the offending span (the list's own span for an
    unresolved list); the
    program assembler's generator returns [UnknownFunction] with the call's
    span for a name it does not know, and [write_asm_file] returns the
    first [Err] of any procedure as its result.  A ["when-flag-clicked"]
    procedure with parameters is not an error value: [generate_proc]
    panics. *)
Theorem error_reporting :
  (forall sym sp st,
     position sym (proc_params st) = None -> assoc sym (vars st) = None ->
     generate_expr (Sym sym sp) st = Err (UnknownVarOrList sp sym) st) /\
  (forall l lsp idx sp st,
     assoc l (lists st) = None ->
     generate_expr (FuncCall "!!" sp [Sym l lsp; idx]) st = Err (UnknownVarOrList lsp l) st) /\
  (forall l lsp sp st,
     assoc l (lists st) = None ->
     generate_expr (FuncCall "length" sp [Sym l lsp]) st = Err (UnknownVarOrList lsp l) st) /\
  (forall f sp args st,
     ~ In f expr_known_functions ->
     generate_expr (FuncCall f sp args) st = Err (UnknownFunction sp f) st) /\
  (forall f sp args st,
     In f unary_functions -> List.length args <> 1%nat ->
     generate_expr (FuncCall f sp args) st =
     Err (FunctionWrongArgCount sp f 1 (List.length args)) st) /\
  (forall f sp args st,
     In f binary_functions -> List.length args <> 2%nat ->
     generate_expr (FuncCall f sp args) st =
     Err (FunctionWrongArgCount sp f 2 (List.length args)) st) /\
  (forall sp args st,
     List.length args <> 2%nat ->
     generate_expr (FuncCall "!!" sp args) st =
     Err (FunctionWrongArgCount sp "!!" 2 (List.length args)) st) /\
  (forall sp args st,
     List.length args <> 1%nat ->
     generate_expr (FuncCall "length" sp args) st =
     Err (FunctionWrongArgCount sp "length" 1 (List.length args)) st) /\
  (forall f sp args st,
     ~ In f ("++" :: X86_64.legacy_known_functions) ->
     X86_64.generate_expr (FuncCall f sp args) st = Err (UnknownFunction sp f) st) /\
  (forall fmt program e st,
     X86_64.generate_all fmt (X86_64.all_procs program) empty_program = Err e st ->
     X86_64.write_asm_file fmt program = Err e st) /\
  (forall fmt p ps b st,
     X86_64.generate_proc fmt "when-flag-clicked" (mkProcedure (p :: ps) b) st = Panic).
Proof.
  split; [|split; [|split; [|split; [|split; [|split; [|split; [|split; [|split; [|split]]]]]]]]].
  - intros sym sp st H1 H2; cbn [generate_expr]; unfold generate_symbol, lookup_var.
    unfold bind, gets; rewrite H1, H2; reflexivity.
  - intros l lsp idx sp st H; cbn [generate_expr map]; unfold generate_func_call.
    simpl; unfold lookup_list, bind; rewrite H; reflexivity.
  - intros l lsp sp st H; cbn [generate_expr map]; unfold generate_func_call.
    simpl; unfold lookup_list, bind; rewrite H; reflexivity.
  - intros f sp args st Hf; pose proof (eqb_not_in _ _ Hf) as Hne.
    cbn [generate_expr]; unfold generate_func_call.
    rewrite !Hne by (cbn; tauto); reflexivity.
  - intros f sp args st Hf Hn.
    cbn in Hf; repeat destruct Hf as [<- | Hf]; try contradiction.
    all: destruct args as [|a [|b args]]; cbn in Hn; try lia; try reflexivity.
    all: cbn; rewrite length_map; reflexivity.
  - intros f sp args st Hf Hn.
    cbn in Hf; repeat destruct Hf as [<- | Hf]; try contradiction.
    all: destruct args as [|a [|b [|c args]]]; cbn in Hn; try lia; try reflexivity.
    all: cbn; rewrite length_map; reflexivity.
  - intros sp args st Hn.
    destruct args as [|a [|b [|c args]]]; cbn in Hn; try lia; try reflexivity.
    all: destruct a; rewrite <- (length_map (fun x => (x, generate_expr x))); reflexivity.
  - intros sp args st Hn.
    destruct args as [|a [|b args]]; cbn in Hn; try lia; try reflexivity.
    all: destruct a; rewrite <- (length_map (fun x => (x, generate_expr x))); reflexivity.
  - intros f sp args st Hf; pose proof (eqb_not_in _ _ Hf) as Hne.
    cbn [X86_64.generate_expr]; unfold X86_64.generate_func_call.
    rewrite Hne by (cbn; tauto).
    replace (existsb (String.eqb f) X86_64.legacy_known_functions) with false;
      [reflexivity|].
    symmetry; apply Bool.not_true_iff_false; rewrite existsb_exists.
    intros (g & Hg & E); rewrite Hne in E; [discriminate | cbn; tauto].
  - intros fmt program e st H; unfold X86_64.write_asm_file; rewrite H; reflexivity.
  - intros fmt p ps b st; reflexivity.
Qed.

Lemma error_reporting_witness :
  generate_expr (Sym "x" sample_span) (sample_state true) =
    Err (UnknownVarOrList sample_span "x") (sample_state true) /\
  generate_expr (FuncCall "!!" sample_span [Sym "l" sample_span; num_lit 0])
    (sample_state true) = Err (UnknownVarOrList sample_span "l") (sample_state true) /\
  generate_expr (FuncCall "length" sample_span [Sym "l" sample_span])
    (sample_state true) = Err (UnknownVarOrList sample_span "l") (sample_state true) /\
  generate_expr (FuncCall "frob" sample_span []) (sample_state true) =
    Err (UnknownFunction sample_span "frob") (sample_state true) /\
  generate_expr (FuncCall "sqrt" sample_span []) (sample_state true) =
    Err (FunctionWrongArgCount sample_span "sqrt" 1 0) (sample_state true) /\
  generate_expr (FuncCall "mod" sample_span [num_lit 0]) (sample_state true) =
    Err (FunctionWrongArgCount sample_span "mod" 2 1) (sample_state true) /\
  generate_expr (FuncCall "!!" sample_span [num_lit 0]) (sample_state true) =
    Err (FunctionWrongArgCount sample_span "!!" 2 1) (sample_state true) /\
  generate_expr (FuncCall "length" sample_span []) (sample_state true) =
    Err (FunctionWrongArgCount sample_span "length" 1 0) (sample_state true) /\
  X86_64.generate_expr (FuncCall "frob" sample_span []) (sample_state true) =
    Err (UnknownFunction sample_span "frob") (sample_state true) /\
  (exists st, X86_64.write_asm_file (fun _ => EmptyString) unknown_fn_program =
              Err (UnknownFunction sample_span "frob") st) /\
  X86_64.generate_proc (fun _ => EmptyString) "when-flag-clicked"
    (mkProcedure ["x"] (Do [])) (sample_state true) = Panic.
Proof.
  destruct error_reporting as (H1 & H2 & H2' & H3 & H4 & H5 & H4' & H5' & H6 & H7 & H8).
  split; [apply H1; reflexivity|].
  split; [apply H2; reflexivity|].
  split; [apply H2'; reflexivity|].
  split; [apply H3; vm_compute; intros Hin;
          repeat (destruct Hin as [Hin | Hin]; [discriminate|]); exact Hin|].
  split; [apply (H4 "sqrt" sample_span [] (sample_state true));
          [vm_compute; tauto | vm_compute; discriminate]|].
  split; [apply (H5 "mod" sample_span [num_lit 0] (sample_state true));
          [vm_compute; tauto | vm_compute; discriminate]|].
  split; [apply (H4' sample_span [num_lit 0] (sample_state true));
          vm_compute; discriminate|].
  split; [apply (H5' sample_span [] (sample_state true)); vm_compute; discriminate|].
  split; [apply H6; vm_compute; intros Hin;
          repeat (destruct Hin as [Hin | Hin]; [discriminate|]); exact Hin|].
  split; [eexists; apply H7; reflexivity|].
  apply H8.
Defined.

Section Comparisons.

Lemma bind_ok {A B} (m : M A) (k : A -> M B) st a st' :
  m st = Ok a st' -> bind m k st = k a st'.
Proof. intros E; unfold bind; rewrite E; reflexivity. Qed.

Lemma func_call_less a b sp :
  generate_expr (FuncCall "<" sp [a; b]) =
  generate_comparison Lt (generate_expr a) (generate_expr b).
Proof. reflexivity. Qed.

Lemma func_call_equal a b sp :
  generate_expr (FuncCall "=" sp [a; b]) =
  generate_comparison Eq (generate_expr a) (generate_expr b).
Proof. reflexivity. Qed.

End Comparisons.

(** C7: comparison kinds.  A successful compilation of [(< a b)] has
    representation [Bool], and both [a] and [b] compiled to [Double] ([b]
    in the state after [a]'s value was pushed); every other combination
    panics ([todo!()]) or fails.  When [a] compiles to [Double] and [b] to
    [Bool], [(= a b)] appends after [b]'s code only [xor eax, eax] and the
    release of the pushed slot, with no helper call, and restores the
    pushed-slot parity; that tail leaves [0] (false) in [rax]. *)
Theorem comparison_kinds :
  (forall a b sp st t st',
     generate_expr (FuncCall "<" sp [a; b]) st = Ok t st' ->
     t = Typ.Bool /\
     exists s1 s2,
       generate_expr a st = Ok Typ.Double s1 /\
       generate_expr b (set_aligned (set_text s1 (text s1 ++ acc_push))
                                    (negb (stack_aligned s1))) = Ok Typ.Double s2) /\
  (forall a b sp st s1 s2,
     generate_expr a st = Ok Typ.Double s1 ->
     generate_expr b (set_aligned (set_text s1 (text s1 ++ acc_push))
                                  (negb (stack_aligned s1))) = Ok Typ.Bool s2 ->
     generate_expr (FuncCall "=" sp [a; b]) st =
     Ok Typ.Bool
        (set_aligned (set_text s2 (text s2 ++ [Ins "xor" [eax; eax]; Ins "add" [rsp; Imm 8]]))
                     (negb (stack_aligned s2)))) /\
  (forall r v s cs z,
     exists m,
       Machine.exec [Ins "xor" [eax; eax]; Ins "add" [rsp; Imm 8]]
         (Machine.mkM r (v :: s) cs z None) = Some m /\
       Machine.get_reg m "rax" = Machine.SNum 0 /\ Machine.stk m = s /\
       Machine.calls m = cs).
Proof.
  split; [|split].
  - intros a b sp st t st' E; rewrite func_call_less in E; unfold generate_comparison in E.
    unfold bind at 1 in E.
    destruct (generate_expr a st) as [ta s1| |] eqn:Ea; try discriminate.
    destruct ta; try discriminate.
    unfold bind in E; cbn in E.
    destruct (generate_expr b _) as [tb s2| |] eqn:Eb; try discriminate.
    destruct tb; try discriminate.
    injection E as <- _; split; [reflexivity|].
    exists s1, s2; split; [reflexivity|].
    rewrite <- Eb; destruct s1; reflexivity.
  - intros a b sp st s1 s2 Ea Eb; rewrite func_call_equal; unfold generate_comparison.
    rewrite (bind_ok _ _ _ _ _ Ea).
    unfold bind at 1; cbn -[generate_expr].
    change (xorb (stack_aligned s1) true) with (negb (stack_aligned s1)).
    rewrite (bind_ok _ _ _ _ _ Eb); destruct s2; cbn; rewrite <- app_assoc; reflexivity.
  - intros r v s cs z; eexists; repeat split; reflexivity.
Qed.

Lemma comparison_kinds_witness :
  (Typ.Bool = Typ.Bool /\
   exists s1 s2,
     generate_expr (num_lit 1) (sample_state true) = Ok Typ.Double s1 /\
     generate_expr (num_lit 2) (set_aligned (set_text s1 (text s1 ++ acc_push))
                                           (negb (stack_aligned s1))) = Ok Typ.Double s2) /\
  (exists s2,
     generate_expr (FuncCall "=" sample_span [num_lit 1; bool_lit true]) (sample_state true) =
     Ok Typ.Bool
        (set_aligned (set_text s2 (text s2 ++ [Ins "xor" [eax; eax]; Ins "add" [rsp; Imm 8]]))
                     (negb (stack_aligned s2)))).
Proof.
  destruct comparison_kinds as (H1 & H2 & _).
  split.
  - let r := eval vm_compute in
        (generate_expr (FuncCall "<" sample_span [num_lit 1; num_lit 2]) (sample_state true)) in
    match r with
    | Ok ?t ?st' =>
        apply (H1 (num_lit 1) (num_lit 2) sample_span (sample_state true) t st');
        vm_compute; reflexivity
    end.
  - let r1 := eval vm_compute in (generate_expr (num_lit 1) (sample_state true)) in
    match r1 with
    | Ok _ ?s1 =>
        let r2 := eval vm_compute in
            (generate_expr (bool_lit true)
               (set_aligned (set_text s1 (text s1 ++ acc_push)) (negb (stack_aligned s1)))) in
        match r2 with
        | Ok _ ?s2 =>
            exists s2;
            apply (H2 (num_lit 1) (bool_lit true) sample_span (sample_state true) s1 s2);
            vm_compute; reflexivity
        end
    end.
Defined.

Section EntryPoints.

Lemma grows_ret {A} (x : A) : grows (ret x).
Proof.
  intros st a st' E; injection E as <- <-.
  split; [reflexivity | exists []; rewrite app_nil_r; reflexivity].
Qed.

Lemma grows_emit c : grows (emit c).
Proof. intros st a st' E; injection E as <- <-; split; [reflexivity | exists c; reflexivity]. Qed.

Lemma grows_new_uid : grows new_uid.
Proof.
  intros st a st' E; injection E as <- <-.
  split; [reflexivity | exists []; rewrite app_nil_r; reflexivity].
Qed.

Lemma grows_fail {A} e : grows (@fail A e).
Proof. intros st a st' E; discriminate. Qed.

Lemma grows_panic {A} : grows (@panic A).
Proof. intros st a st' E; discriminate. Qed.

Lemma grows_bind {A B} (m : M A) (k : A -> M B) :
  grows m -> (forall x, grows (k x)) -> grows (bind m k).
Proof.
  intros Hm Hk st b st' E; unfold bind in E.
  destruct (m st) as [x s1| |] eqn:E1; try discriminate.
  destruct (Hm _ _ _ E1) as [P1 [c1 T1]]; destruct (Hk x _ _ _ E) as [P2 [c2 T2]].
  split; [congruence | exists (c1 ++ c2); rewrite T2, T1, app_assoc; reflexivity].
Qed.

Lemma grows_sequence_ l : Forall grows l -> grows (sequence_ l).
Proof.
  induction 1 as [|m l Hm _ IH]; cbn [sequence_];
    [apply grows_ret | apply grows_bind; [exact Hm | intros; exact IH]].
Qed.

Create HintDb grows.
#[local] Hint Resolve grows_ret grows_emit grows_new_uid grows_fail grows_panic : grows.

Ltac grows_step :=
  repeat first
    [ apply grows_bind; [| intros ?]
    | solve [eauto with grows]
    | match goal with |- grows (match ?x with _ => _ end) => destruct x end ].

Lemma grows_allocate_static_str s : grows (allocate_static_str s).
Proof. unfold allocate_static_str; grows_step. Qed.
#[local] Hint Resolve grows_allocate_static_str : grows.

Lemma grows_legacy_expr e : grows (X86_64.generate_expr e).
Proof.
  induction e as [lit|sym sp|f sp args IH|ps ns _ _|ns ds _ _] using Expr_ind';
    cbn [X86_64.generate_expr]; try apply grows_panic.
  - unfold push_lit; grows_step.
  - apply (Forall_map X86_64.generate_expr grows) in IH.
    unfold X86_64.generate_func_call, cowify, drop_pop.
    destruct (String.eqb f "++");
      [|destruct existsb; [apply grows_panic | apply grows_fail]].
    destruct (map X86_64.generate_expr args) as [|x [|y [|z l]]];
      [apply grows_panic | inversion IH; assumption | | apply grows_panic].
    inversion IH as [|? ? Hx IH']; inversion IH' as [|? ? Hy _]; subst.
    repeat (apply grows_bind; [| intros ?]); eauto with grows.
Qed.
#[local] Hint Resolve grows_legacy_expr : grows.

Lemma grows_statement fmt s : grows (X86_64.generate_statement fmt s).
Proof.
  induction s as [f args|stmts IH|c t f _ _|n b _|b IH|c b _|c b _|x n b _]
    using Statement_ind'; cbn [X86_64.generate_statement]; try apply grows_panic.
  - unfold X86_64.generate_proc_call, cowify, drop_pop.
    destruct (String.eqb f "print"); [|apply grows_panic].
    destruct args as [|[] [|]]; grows_step.
  - apply grows_sequence_, Forall_map; exact IH.
  - grows_step; exact IH.
Qed.

End EntryPoints.

(** C8: the rendered file.  A successful [write_asm_file] returns the
    prelude, the [main] label, one [call] per registered entry point in the
    order of [entry_points], the exit system call ([rax] = 60), and only
    then the compiled text.  A ["when-flag-clicked"] procedure compiled
    successfully is registered by appending its fresh label to
    [entry_points], and its body is placed under that label;
    [generate_all] compiles the procedures one after the other in list
    order, so the calls follow the order in which the procedures were
    compiled.  With two start procedures, both are called, in declaration
    order, before the exit. *)
Theorem startup_routine_order :
  (forall fmt program out st,
     X86_64.write_asm_file fmt program = Ok out st ->
     X86_64.generate_all fmt (X86_64.all_procs program) empty_program = Ok tt st /\
     out = [Prelude; Label (LSym "main")]
           ++ map (fun u => Ins "call" [Ref (LUid u)]) (entry_points st)
           ++ [Ins "mov" [rax; Imm 60]; Ins "mov" [rdi; Imm 0]; Ins "syscall" []]
           ++ text st) /\
  (forall fmt name proc st id st',
     X86_64.generate_proc fmt name proc st = Ok id st' ->
     name = "when-flag-clicked" /\ id = uid_generator st /\
     entry_points st' = entry_points st ++ [id] /\
     exists body, text st' = text st ++ Label (LUid id) :: body) /\
  (forall fmt name proc ps st st',
     X86_64.generate_all fmt ((name, proc) :: ps) st = Ok tt st' ->
     exists id s1, X86_64.generate_proc fmt name proc st = Ok id s1 /\
                   X86_64.generate_all fmt ps s1 = Ok tt st') /\
  (exists st,
     X86_64.write_asm_file (fun _ => EmptyString) two_starts_program =
     Ok ([Prelude; Label (LSym "main"); Ins "call" [Ref (LUid 0)];
          Ins "call" [Ref (LUid 2)]; Ins "mov" [rax; Imm 60];
          Ins "mov" [rdi; Imm 0]; Ins "syscall" []] ++ text st) st /\
     entry_points st = [0%N; 2%N] /\
     firstn 1 (text st) = [Label (LUid 0)] /\
     nth_error (text st) 8 = Some (Label (LUid 2))).
Proof.
  split; [|split; [|split]].
  - intros fmt program out st E; unfold X86_64.write_asm_file in E.
    destruct (X86_64.generate_all _ _ _) as [[] s| |] eqn:Eg; try discriminate.
    injection E as <- <-; split; reflexivity.
  - intros fmt name proc st id st' E; unfold X86_64.generate_proc in E.
    destruct (String.eqb_spec name "when-flag-clicked") as [->|]; [|discriminate].
    destruct (params proc); [|discriminate].
    unfold bind in E; cbn -[X86_64.generate_statement] in E.
    destruct (X86_64.generate_statement fmt (body proc) _) as [[] s3| |] eqn:Es;
      try discriminate.
    injection E as <- <-.
    destruct (grows_statement _ _ _ _ _ Es) as [P [c T]].
    cbn in P, T |- *; rewrite P, T.
    split; [reflexivity|]; split; [reflexivity|]; split; [reflexivity|].
    exists (c ++ [Ins "ret" []]); rewrite <- !app_assoc; reflexivity.
  - intros fmt name proc ps st st' E; cbn [X86_64.generate_all foreach] in E.
    unfold bind in E.
    destruct (X86_64.generate_proc fmt name proc st) as [id s1| |]; try discriminate.
    exists id, s1; split; [reflexivity | exact E].
  - let r := eval vm_compute in
        (X86_64.write_asm_file (fun _ => EmptyString) two_starts_program) in
    match r with
    | Ok _ ?st => exists st; vm_compute; repeat split; reflexivity
    end.
Qed.

Lemma startup_routine_order_witness :
  (exists out st, X86_64.write_asm_file (fun _ => EmptyString) two_starts_program = Ok out st /\
     X86_64.generate_all (fun _ => EmptyString) (X86_64.all_procs two_starts_program)
       empty_program = Ok tt st /\
     out = [Prelude; Label (LSym "main")]
           ++ map (fun u => Ins "call" [Ref (LUid u)]) (entry_points st)
           ++ [Ins "mov" [rax; Imm 60]; Ins "mov" [rdi; Imm 0]; Ins "syscall" []]
           ++ text st) /\
  (exists id st',
     X86_64.generate_proc (fun _ => EmptyString) "when-flag-clicked"
       (mkProcedure [] (Do [])) empty_program = Ok id st' /\
     "when-flag-clicked" = "when-flag-clicked" /\ id = uid_generator empty_program /\
     entry_points st' = entry_points empty_program ++ [id] /\
     exists body, text st' = text empty_program ++ Label (LUid id) :: body) /\
  (exists st',
     X86_64.generate_all (fun _ => EmptyString) (X86_64.all_procs two_starts_program)
       empty_program = Ok tt st' /\
     exists id s1,
       X86_64.generate_proc (fun _ => EmptyString) "when-flag-clicked"
         (mkProcedure [] (ProcCall "print" [Lit (Value.String "a")])) empty_program =
       Ok id s1 /\
       X86_64.generate_all (fun _ => EmptyString)
         [("when-flag-clicked", mkProcedure [] (ProcCall "print" [Lit (Value.String "b")]))]
         s1 = Ok tt st').
Proof.
  destruct startup_routine_order as (H1 & H2 & H3 & _).
  split; [|split].
  - let r := eval vm_compute in
        (X86_64.write_asm_file (fun _ => EmptyString) two_starts_program) in
    match r with
    | Ok ?out ?st =>
        exists out, st; split; [vm_compute; reflexivity|];
        apply (H1 (fun _ => EmptyString) two_starts_program out st);
        vm_compute; reflexivity
    end.
  - let r := eval vm_compute in
        (X86_64.generate_proc (fun _ => EmptyString) "when-flag-clicked"
           (mkProcedure [] (Do [])) empty_program) in
    match r with
    | Ok ?id ?st' =>
        exists id, st'; split; [vm_compute; reflexivity|];
        apply (H2 (fun _ => EmptyString) "when-flag-clicked" (mkProcedure [] (Do []))
                  empty_program id st');
        vm_compute; reflexivity
    end.
  - let r := eval vm_compute in
        (X86_64.generate_all (fun _ => EmptyString) (X86_64.all_procs two_starts_program)
           empty_program) in
    match r with
    | Ok _ ?st' =>
        exists st'; split; [vm_compute; reflexivity|];
        apply (H3 (fun _ => EmptyString) "when-flag-clicked"
                  (mkProcedure [] (ProcCall "print" [Lit (Value.String "a")]))
                  [("when-flag-clicked",
                    mkProcedure [] (ProcCall "print" [Lit (Value.String "b")]))]
                  empty_program st');
        vm_compute; reflexivity
    end.
Defined.

(** C9, counterexample: allocating the same content twice gives two labels
    and two copies of its bytes. *)
Lemma static_str_not_interned :
  exists st,
    (a <- allocate_static_str "ab" ;; b <- allocate_static_str "ab" ;; ret (a, b))
      empty_program = Ok (0%N, 1%N) st /\
    text st = [StaticData 0 [97; 98]; StaticData 1 [97; 98]]%Z.
Proof. eexists; split; reflexivity. Qed.

(** C9 (amended): [allocate_static_str s] does not look the content up:
    each call returns the uid counter's current value as a fresh label,
    advances the counter, and appends one static-data line with the bytes
    of [s]; two allocations of the same content thus give two distinct
    labels and two copies of the data. *)
Theorem static_str_fresh_label :
  (forall s st,
     allocate_static_str s st =
     Ok (uid_generator st)
        (set_text (set_uid st (uid_generator st + 1))
                  (text st ++ [StaticData (uid_generator st) (bytes s)]))) /\
  (forall s st,
     exists st',
       (a <- allocate_static_str s ;; b <- allocate_static_str s ;; ret (a, b)) st =
       Ok (uid_generator st, (uid_generator st + 1)%N) st' /\
       uid_generator st <> (uid_generator st + 1)%N /\
       text st' = text st ++ [StaticData (uid_generator st) (bytes s);
                              StaticData (uid_generator st + 1) (bytes s)]).
Proof.
  split.
  - intros s st; reflexivity.
  - intros s st; eexists; split; [reflexivity|]; split; [lia|].
    cbn; rewrite <- app_assoc; reflexivity.
Qed.

Section Mod.

Lemma func_call_mod lhs rhs sp :
  generate_expr (FuncCall "mod" sp [lhs; rhs]) =
  (generate_double_expr (generate_expr rhs) ;;
   stack_was_aligned <- get_aligned ;;
   emit [if stack_was_aligned then sub_rsp 8 else sub_rsp 16] ;;
   put_aligned true ;;
   emit [Ins "movsd" [at_rsp 0; xmm0]] ;;
   generate_double_expr (generate_expr lhs) ;;
   emit [Ins "movsd" [xmm1; at_rsp 0]; call "fmod"] ;;
   emit [if stack_was_aligned then add_rsp 8 else add_rsp 16] ;;
   put_aligned stack_was_aligned ;;
   ret Typ.Double).
Proof. reflexivity. Qed.

End Mod.

(** C10: [(mod lhs rhs)].  The right operand is compiled (to [Double])
    first, its value is spilled to a freshly reserved stack slot (8 or 16
    bytes, by the parity at that point), then the left operand is compiled
    (to [Double]) with the flag set to aligned, then [movsd xmm1, [rsp]]
    and a call of [fmod] and the release of the slot follow.  A successful
    compilation has representation [Double] and leaves the alignment flag
    as it was before the expression. *)
Theorem mod_compilation :
  (forall lhs rhs sp,
     generate_expr (FuncCall "mod" sp [lhs; rhs]) =
     (generate_double_expr (generate_expr rhs) ;;
      stack_was_aligned <- get_aligned ;;
      emit [if stack_was_aligned then sub_rsp 8 else sub_rsp 16] ;;
      put_aligned true ;;
      emit [Ins "movsd" [at_rsp 0; xmm0]] ;;
      generate_double_expr (generate_expr lhs) ;;
      emit [Ins "movsd" [xmm1; at_rsp 0]; call "fmod"] ;;
      emit [if stack_was_aligned then add_rsp 8 else add_rsp 16] ;;
      put_aligned stack_was_aligned ;;
      ret Typ.Double)) /\
  (forall lhs rhs sp st t st',
     generate_expr (FuncCall "mod" sp [lhs; rhs]) st = Ok t st' ->
     t = Typ.Double /\ stack_aligned st' = stack_aligned st /\
     exists s1 s2,
       generate_double_expr (generate_expr rhs) st = Ok tt s1 /\
       generate_double_expr (generate_expr lhs)
         (set_aligned
            (set_text s1 (text s1 ++ [if stack_aligned s1 then sub_rsp 8 else sub_rsp 16;
                                      Ins "movsd" [at_rsp 0; xmm0]])) true) = Ok tt s2 /\
       text st' = text s2 ++ [Ins "movsd" [xmm1; at_rsp 0]; call "fmod";
                              if stack_aligned s1 then add_rsp 8 else add_rsp 16]).
Proof.
  split.
  - exact func_call_mod.
  - intros lhs rhs sp st t st' E.
    destruct (closed_generate_expr (FuncCall "mod" sp [lhs; rhs]) (stack_aligned st)
                st t st' eq_refl E) as [Hal _].
    rewrite func_call_mod in E; unfold bind at 1 in E.
    destruct (generate_double_expr (generate_expr rhs) st) as [[] s1| |] eqn:E1;
      try discriminate.
    unfold bind in E; cbn -[generate_double_expr generate_expr] in E.
    destruct (generate_double_expr (generate_expr lhs) _) as [[] s2| |] eqn:E2;
      try discriminate.
    injection E as <- <-; split; [reflexivity|]; split; [exact Hal|].
    exists s1, s2; split; [reflexivity|]; split.
    + rewrite <- E2; destruct s1; cbn; rewrite <- app_assoc; reflexivity.
    + destruct s2; cbn; rewrite <- !app_assoc; reflexivity.
Qed.

Lemma mod_compilation_witness :
  exists st',
    generate_expr (FuncCall "mod" sample_span [num_lit f64_five; num_lit f64_one])
      (sample_state false) = Ok Typ.Double st' /\
    Typ.Double = Typ.Double /\ stack_aligned st' = stack_aligned (sample_state false) /\
    exists s1 s2,
      generate_double_expr (generate_expr (num_lit f64_one)) (sample_state false) = Ok tt s1 /\
      generate_double_expr (generate_expr (num_lit f64_five))
        (set_aligned
           (set_text s1 (text s1 ++ [if stack_aligned s1 then sub_rsp 8 else sub_rsp 16;
                                     Ins "movsd" [at_rsp 0; xmm0]])) true) = Ok tt s2 /\
      text st' = text s2 ++ [Ins "movsd" [xmm1; at_rsp 0]; call "fmod";
                             if stack_aligned s1 then add_rsp 8 else add_rsp 16].
Proof.
  destruct mod_compilation as [_ H].
  let r := eval vm_compute in
      (generate_expr (FuncCall "mod" sample_span [num_lit f64_five; num_lit f64_one])
         (sample_state false)) in
  match r with
  | Ok ?t ?st' =>
      exists st'; split; [vm_compute; reflexivity|];
      apply (H (num_lit f64_five) (num_lit f64_one) sample_span (sample_state false) t st');
      vm_compute; reflexivity
  end.
Defined.

Section ExprFootprint.

Ltac oa_fin st :=
  destruct st; cbn in *;
  repeat split; try lia;
  first [ exists []; rewrite app_nil_r; reflexivity | eexists; reflexivity ].

Lemma oa_ret {A} (x : A) : only_appends (ret x).
Proof.
  intros st a st' E; injection E as <- <-.
  oa_fin st.
Qed.

Lemma oa_emit c : only_appends (emit c).
Proof. intros st a st' E; injection E as <- <-; oa_fin st. Qed.

Lemma oa_fail {A} e : only_appends (@fail A e).
Proof. intros st a st' E; discriminate. Qed.

Lemma oa_panic {A} : only_appends (@panic A).
Proof. intros st a st' E; discriminate. Qed.

Lemma oa_gets {A} (f : AsmProgram -> A) : only_appends (gets f).
Proof.
  intros st a st' E; injection E as <- <-.
  oa_fin st.
Qed.

Lemma oa_put_aligned b : only_appends (put_aligned b).
Proof.
  intros st a st' E; injection E as <- <-.
  oa_fin st.
Qed.

Lemma oa_toggle : only_appends toggle_aligned.
Proof.
  intros st a st' E; injection E as <- <-.
  oa_fin st.
Qed.

Lemma oa_new_uid : only_appends new_uid.
Proof.
  intros st a st' E; injection E as <- <-.
  oa_fin st.
Qed.

Lemma oa_aligning_call f : only_appends (aligning_call f).
Proof.
  intros st a st' E; unfold aligning_call in E.
  destruct (stack_aligned st); injection E as <- <-;
    oa_fin st.
Qed.

Lemma oa_lookup_list n sp : only_appends (lookup_list n sp).
Proof.
  intros st a st' E; unfold lookup_list in E.
  destruct (assoc n (lists st)); [|discriminate]; injection E as <- <-.
  oa_fin st.
Qed.

Lemma oa_intern_static_str s : only_appends (intern_static_str s).
Proof.
  intros st a st' E; unfold intern_static_str, bind, gets, ret, new_uid in E.
  destruct (assoc s (static_strs st)); injection E as <- <-; oa_fin st.
Qed.

Lemma oa_bind {A B} (m : M A) (k : A -> M B) :
  only_appends m -> (forall x, only_appends (k x)) -> only_appends (bind m k).
Proof.
  intros Hm Hk st b st' E; unfold bind in E.
  destruct (m st) as [x s1| |] eqn:E1; try discriminate.
  destruct (Hm _ _ _ E1) as (P1 & Q1 & V1 & L1 & U1 & c1 & T1).
  destruct (Hk x _ _ _ E) as (P2 & Q2 & V2 & L2 & U2 & c2 & T2).
  repeat split; try congruence; [lia|].
  exists (c1 ++ c2); rewrite T2, T1, app_assoc; reflexivity.
Qed.

Lemma oa_foreach {A} (l : list A) f :
  (forall x, In x l -> only_appends (f x)) -> only_appends (foreach l f).
Proof.
  induction l as [|x l IH]; intros H; cbn [foreach]; [apply oa_ret|].
  apply oa_bind; [apply H; left; reflexivity | intros _; apply IH].
  intros y Hy; apply H; right; exact Hy.
Qed.

Create HintDb footprint.
#[local] Hint Resolve oa_ret oa_emit oa_fail oa_panic oa_gets oa_put_aligned oa_toggle
  oa_new_uid oa_aligning_call oa_lookup_list oa_intern_static_str : footprint.

Ltac oa_member :=
  first
    [ assumption
    | match goal with
      | Hx : In _ (_ :: _) |- _ => destruct Hx as [<-|Hx]; oa_member
      | Hx : In _ [] |- _ => destruct Hx
      end
    | match goal with
      | H : Forall ?P ?l, Hx : In ?x ?l |- _ =>
          exact (proj1 (Forall_forall P l) H x Hx)
      | H : Forall ?P ?l, Hx : In ?x (rev ?l) |- _ =>
          exact (proj1 (Forall_forall P l) H x (proj2 (in_rev l x) Hx))
      end
    | match goal with
      | H : Forall ?P ?l |- _ => apply (proj1 (Forall_forall P l) H); simpl; tauto
      end ].

Ltac oa_step :=
  match goal with
  | |- only_appends (bind _ _) => apply oa_bind; [ | intros ? ]
  | |- only_appends (foreach _ _) => apply oa_foreach; intros ? ?
  | |- only_appends (snd _) => oa_member
  | H : only_appends ?m |- only_appends ?m => exact H
  | |- only_appends (lookup_var _) => unfold lookup_var
  | |- only_appends (allocate_static_str _) => unfold allocate_static_str
  | |- only_appends (generate_lit _) => unfold generate_lit
  | |- only_appends (match ?s with _ => _ end) =>
      let l := lazymatch s with split_last ?l => l end in
      let E := fresh "E" in
      destruct s as [[?rest ?last]|] eqn:E;
      [ apply split_last_app in E;
        match goal with H : Forall ?P l |- _ =>
          rewrite E in H; apply Forall_app in H; destruct H as [? H];
          apply Forall_cons_iff in H; destruct H end
      | ]; cbv beta iota
  | |- only_appends (match ?x with _ => _ end) => destruct x; cbv beta iota
  | |- only_appends _ => solve [eauto with footprint]
  end.

Lemma oa_generate_lit lit : only_appends (generate_lit lit).
Proof. repeat oa_step. Qed.

Lemma oa_conversions m :
  only_appends m ->
  only_appends (generate_bool_expr m) /\ only_appends (generate_double_expr m) /\
  only_appends (generate_cow_expr m) /\ only_appends (generate_any_expr m).
Proof.
  intros Hm; unfold generate_bool_expr, generate_double_expr, generate_cow_expr,
    generate_any_expr; refine (conj _ (conj _ (conj _ _))); repeat oa_step.
Qed.

Lemma oa_generate_comparison o lhs rhs :
  only_appends lhs -> only_appends rhs -> only_appends (generate_comparison o lhs rhs).
Proof. intros Hl Hr; unfold generate_comparison; destruct o; repeat oa_step. Qed.

Ltac oa_step_full :=
  match goal with
  | |- only_appends (generate_bool_expr ?m) =>
      let H := fresh in assert (H : only_appends m) by oa_member;
      apply (oa_conversions m H)
  | |- only_appends (generate_double_expr ?m) =>
      let H := fresh in assert (H : only_appends m) by oa_member;
      apply (oa_conversions m H)
  | |- only_appends (generate_cow_expr ?m) =>
      let H := fresh in assert (H : only_appends m) by oa_member;
      apply (oa_conversions m H)
  | |- only_appends (generate_any_expr ?m) =>
      let H := fresh in assert (H : only_appends m) by oa_member;
      apply (oa_conversions m H)
  | |- only_appends (generate_comparison _ _ _) =>
      apply oa_generate_comparison; oa_member
  | _ => oa_step
  end.

Lemma oa_generate_symbol sym sp : only_appends (generate_symbol sym sp).
Proof. unfold generate_symbol; repeat oa_step_full. Qed.

Lemma oa_generate_add_sub ps ns :
  Forall only_appends ps -> Forall only_appends ns -> only_appends (generate_add_sub ps ns).
Proof.
  intros Hp Hn; unfold generate_add_sub.
  destruct ps as [|p ps]; destruct ns as [|n ns]; repeat oa_step_full.
Qed.

Lemma oa_generate_mul_div ns ds :
  Forall only_appends ns -> Forall only_appends ds -> only_appends (generate_mul_div ns ds).
Proof.
  intros Hn Hd; unfold generate_mul_div.
  destruct ns as [|n ns]; destruct ds as [|d ds]; repeat oa_step_full.
Qed.

Lemma oa_generate_func_call f args sp :
  Forall (fun a => only_appends (snd a)) args ->
  only_appends (generate_func_call f args sp).
Proof.
  intros Hall; unfold generate_func_call; cbv beta zeta.
  repeat (match goal with
          | |- only_appends (if ?c then _ else _) => destruct c; cbv beta iota
          end).
  all: repeat oa_step_full.
Qed.

Lemma oa_generate_expr e : only_appends (generate_expr e).
Proof.
  induction e as [lit|sym sp|f sp args IH|ps ns IHp IHn|ns ds IHn IHd]
    using Expr_ind'; cbn [generate_expr].
  - apply oa_generate_lit.
  - apply oa_generate_symbol.
  - apply oa_generate_func_call, Forall_map; exact IH.
  - apply oa_generate_add_sub; apply Forall_map; assumption.
  - apply oa_generate_mul_div; apply Forall_map; assumption.
Qed.

End ExprFootprint.

Section ResultTypes.

Lemma yields_ret {A} (P : A -> Prop) x : P x -> yields P (ret x).
Proof. intros Hx st a st' E; injection E as <- _; exact Hx. Qed.

Lemma yields_bind {A B} (P : B -> Prop) (m : M A) k :
  (forall x, yields P (k x)) -> yields P (bind m k).
Proof.
  intros Hk st b st' E; unfold bind in E.
  destruct (m st) as [x s1| |]; try discriminate; exact (Hk x _ _ _ E).
Qed.

Lemma yields_fail {A} (P : A -> Prop) e : yields P (fail e).
Proof. intros st a st' E; discriminate. Qed.

Lemma yields_panic {A} (P : A -> Prop) : yields P panic.
Proof. intros st a st' E; discriminate. Qed.

Ltac yields_step :=
  match goal with
  | |- yields _ (bind _ _) => apply yields_bind; intros ?
  | |- yields _ (ret _) => apply yields_ret; reflexivity
  | |- yields _ (fail _) => apply yields_fail
  | |- yields _ panic => apply yields_panic
  | |- yields _ (generate_lit ?l) => unfold generate_lit; destruct l as [| |[]]
  | |- yields _ (generate_comparison ?o _ _) =>
      unfold generate_comparison; destruct o; cbv beta iota zeta
  | |- yields _ (match ?x with _ => _ end) => destruct x
  end.

Lemma expr_typ_generate_expr e : yields (fun t => expr_typ e = Some t) (generate_expr e).
Proof.
  induction e as [lit|sym sp|f sp args IH|ps ns _ _|ns ds _ _]
    using Expr_ind'; cbn [generate_expr].
  - destruct lit as [| |[]]; unfold generate_lit; repeat yields_step.
  - unfold generate_symbol; repeat yields_step.
  - unfold generate_func_call; cbv beta zeta; cbn [expr_typ].
    destruct args as [|a1 [|a2 [|a3 args]]]; cbn [map List.length].
    all: repeat (match goal with
                 | |- context [String.eqb ?g ?s] => destruct (String.eqb g s)
                 end; cbn [orb existsb]).
    all: try (inversion IH as [|? ? IH1 _]; subst; cbn [snd]; exact IH1).
    all: repeat yields_step.
  - unfold generate_add_sub; repeat yields_step.
  - unfold generate_mul_div; repeat yields_step.
Qed.

End ResultTypes.

Section LiteralRuns.

Ltac run_appends :=
  repeat first
    [ apply appends_num | apply appends_emit | apply appends_toggle | apply appends_ret
    | rewrite !foreach_map; apply appends_foreach; intros ?
    | eapply appends_seq; [ | | reflexivity ] ].

Lemma exec_acc_steps_rev op xs :
  op = "subsd" \/ op = "divsd" ->
  forall m acc s, Machine.skipping m = None -> Machine.stk m = acc :: s ->
  exists m', Machine.exec (flat_map (fun y => load_num y ++ acc_step_rev op) xs) m = Some m' /\
    Machine.skipping m' = None /\ Machine.stk m' = acc_fold_rev op acc xs :: s.
Proof.
  intros Hop; induction xs as [|y xs IH]; intros m acc s Hk Hs.
  - exists m; auto.
  - cbn [flat_map]; rewrite exec_app.
    destruct m as [r st c z k]; cbn in Hk, Hs; subst.
    destruct Hop as [-> | ->]; cbn; apply IH; reflexivity.
Qed.

Lemma compiles_add_sub_numbers x ps ns st :
  compiles_to (AddSub (map num_lit (x :: ps)) (map num_lit ns)) st Typ.Double
    (load_num x ++ acc_push ++ flat_map (fun y => load_num y ++ acc_step "addsd") ps
     ++ flat_map (fun y => load_num y ++ acc_step_rev "subsd") ns ++ acc_pop).
Proof.
  unfold compiles_to; cbn [generate_expr map]; unfold generate_add_sub.
  apply appends_then_ret; eapply appends_code; [run_appends|].
  cbn [app]; rewrite ?app_nil_r, <- ?app_assoc; reflexivity.
Qed.

Lemma compiles_mul_div_numbers x ns ds st :
  compiles_to (MulDiv (map num_lit (x :: ns)) (map num_lit ds)) st Typ.Double
    (load_num x ++ acc_push ++ flat_map (fun y => load_num y ++ acc_step "mulsd") ns
     ++ flat_map (fun y => load_num y ++ acc_step_rev "divsd") ds ++ acc_pop).
Proof.
  unfold compiles_to; cbn [generate_expr map]; unfold generate_mul_div.
  apply appends_then_ret; eapply appends_code; [run_appends|].
  cbn [app]; rewrite ?app_nil_r, <- ?app_assoc; reflexivity.
Qed.

Lemma runs_fold_both op1 op2 x ps ns :
  (op1 = "addsd" /\ op2 = "subsd") \/ (op1 = "mulsd" /\ op2 = "divsd") ->
  exists m,
    Machine.exec (load_num x ++ acc_push ++ flat_map (fun y => load_num y ++ acc_step op1) ps
      ++ flat_map (fun y => load_num y ++ acc_step_rev op2) ns ++ acc_pop) Machine.init
      = Some m /\
    Machine.get_reg m "xmm0" = acc_fold_rev op2 (acc_fold op1 (Machine.SNum x) ps) ns /\
    Machine.stk m = [].
Proof.
  intros Hop.
  rewrite app_assoc, exec_app, (acc_prefix_run x), exec_app.
  destruct (exec_acc_steps op1 ps ltac:(destruct Hop as [[-> _]|[-> _]]; auto)
              (acc_prefix_state x) (Machine.SNum x) [] eq_refl eq_refl) as (m1 & E1 & K1 & S1).
  rewrite E1, exec_app.
  destruct (exec_acc_steps_rev op2 ns ltac:(destruct Hop as [[_ ->]|[_ ->]]; auto)
              m1 _ [] K1 S1) as (m2 & E2 & K2 & S2).
  rewrite E2; destruct m2 as [r st c z k]; cbn in K2, S2; subst.
  eexists; split; [reflexivity|]; split; reflexivity.
Qed.

(** X5: a literal's code, run from an empty machine, leaves a number's bit
    pattern in [rax] and [xmm0], a string's static-data address in [rax]
    and its length in [rdx] (the label the static string table already
    holds for that content, or else the next uid), and a boolean as 0 or 1
    in [rax]. *)
Lemma generate_lit_run lit st :
  exists st' code m,
    generate_expr (Lit lit) st = Ok (match lit with
                                     | Value.Num _ => Typ.Double
                                     | Value.String _ => Typ.StaticStr
                                     | Value.Bool _ => Typ.Bool end) st' /\
    text st' = text st ++ code /\
    Machine.exec code Machine.init = Some m /\ lit_loaded lit st m.
Proof.
  destruct st; destruct lit as [bits|s|[]]; cbn [generate_expr]; unfold generate_lit.
  - do 3 eexists; split; [reflexivity|]; split; [reflexivity|].
    split; [reflexivity|]; split; reflexivity.
  - unfold intern_static_str, lit_loaded, static_str_label, gets, new_uid, bind, emit, ret;
    cbn.
    destruct (assoc s static_strs0); cbn;
      (do 3 eexists; split; [reflexivity|]; split; [reflexivity|];
       split; [reflexivity|]; split; reflexivity).
  - do 3 eexists; split; [reflexivity|]; split; [reflexivity|].
    split; reflexivity.
  - do 3 eexists; split; [reflexivity|]; split; [reflexivity|].
    split; reflexivity.
Qed.

End LiteralRuns.

Section CallRuns.

(** X6: [(!! list index)] with a resolved list and a number index calls
    [list_get] with the index tagged as an [Any] number (tag 2 and the bit
    pattern) and the list's address, whatever the alignment, and leaves the
    stack as it found it. *)
Lemma list_index_run l lsp x sp st id :
  assoc l (lists st) = Some id ->
  exists st' code m,
    generate_expr (FuncCall "!!" sp [Sym l lsp; num_lit x]) st = Ok Typ.Any st' /\
    text st' = text st ++ code /\
    Machine.exec code Machine.init = Some m /\
    Machine.calls m = [("list_get", [Machine.SNum 2; Machine.SNum x; Machine.SAddr (LUid id)])] /\
    Machine.stk m = [].
Proof.
  intros H; destruct st as [u ep t b pp vs ls ss]; cbn in H.
  cbn [generate_expr map]; unfold generate_func_call; cbn -[bind].
  unfold lookup_list, bind; cbn; rewrite H.
  destruct b; cbn; do 3 eexists; (split; [reflexivity|]);
    (split; [rewrite <- !app_assoc; reflexivity|]);
    (cbv; split; [reflexivity|]; split; reflexivity).
Qed.

(** X7: [(not b)] of a boolean literal leaves the negation (0 or 1) in
    [rax]. *)
Lemma not_bool_run (b : bool) sp st :
  exists st' code m,
    generate_expr (FuncCall "not" sp [bool_lit b]) st = Ok Typ.Bool st' /\
    text st' = text st ++ code /\
    Machine.exec code Machine.init = Some m /\
    Machine.get_reg m "rax" = Machine.SNum (if b then 0 else 1)%Z.
Proof.
  destruct st as [u ep t a pp vs ls ss].
  cbn [generate_expr map]; unfold generate_func_call; cbn -[bind].
  unfold generate_bool_expr, generate_lit, bind; cbn.
  destruct b; cbn; do 3 eexists; (split; [reflexivity|]);
    (split; [rewrite <- !app_assoc; reflexivity|]);
    (cbv; split; reflexivity).
Qed.

(** X8: [(str-length s)] of a string literal calls [str_length], then
    [usize_to_double], then releases the string (its address and length)
    with [drop_pop_cow]; the result of [usize_to_double] is left in [xmm0]
    and the stack is as it was, whatever the alignment.  The address is the
    string's label in the static string table. *)
Lemma str_length_run s sp st :
  exists st' code m,
    generate_expr (FuncCall "str-length" sp [str_lit s]) st = Ok Typ.Double st' /\
    text st' = text st ++ code /\
    Machine.exec code Machine.init = Some m /\
    map fst (Machine.calls m) = ["str_length"; "usize_to_double"; "drop_pop_cow"] /\
    In ("drop_pop_cow", [Machine.SAddr (LUid (static_str_label s st));
                         Machine.SNum (Z.of_nat (String.length s))]) (Machine.calls m) /\
    Machine.get_reg m "xmm0" = Machine.SRet "usize_to_double" 1 "xmm0" /\
    Machine.stk m = [].
Proof.
  destruct st as [u ep t a pp vs ls ss].
  cbn [generate_expr map]; unfold generate_func_call; cbn -[bind].
  unfold generate_cow_expr, generate_lit, intern_static_str, static_str_label, gets,
    new_uid, bind; cbn.
  destruct (assoc s ss); destruct a; cbn; do 3 eexists; (split; [reflexivity|]);
    (split; [rewrite <- !app_assoc; reflexivity|]);
    (cbv; split; [reflexivity|];
     split; [reflexivity|]; split; [right; right; left; reflexivity|];
     split; reflexivity).
Qed.

(** X18: [(char-at s i)] of a string literal and a number converts the
    index with [double_to_usize] and returns [char_at]'s two result words in
    [rax] and [rdx], with the stack as it found it.  When the stack was
    aligned, [char_at] gets the string's address, its length and the
    converted index, and [drop_pop_cow] releases the address and length.
    When it was not, the 8-byte pad pushed before the call shifts the slots
    read at [rsp] and [rsp+8]: [char_at] gets the pad word and the address,
    and [drop_pop_cow] releases the pad word and the address.  The address
    is the string's label in the static string table. *)
Lemma char_at_run s i sp st :
  let addr := Machine.SAddr (LUid (static_str_label s st)) in
  let len := Machine.SNum (Z.of_nat (String.length s)) in
  exists st' code m,
    generate_expr (FuncCall "char-at" sp [str_lit s; num_lit i]) st = Ok Typ.OwnedString st' /\
    text st' = text st ++ code /\
    Machine.exec code Machine.init = Some m /\
    map fst (Machine.calls m) = ["double_to_usize"; "char_at"; "drop_pop_cow"] /\
    In ("char_at", if stack_aligned st
                   then [addr; len; Machine.SRet "double_to_usize" 0 "rax"]
                   else [Machine.SUndef; addr; Machine.SRet "double_to_usize" 0 "rax"])
      (Machine.calls m) /\
    In ("drop_pop_cow", if stack_aligned st then [addr; len] else [Machine.SUndef; addr])
      (Machine.calls m) /\
    Machine.get_reg m "rax" = Machine.SRet "char_at" 1 "rax" /\
    Machine.get_reg m "rdx" = Machine.SRet "char_at" 1 "rdx" /\
    Machine.stk m = [].
Proof.
  intros addr len; subst addr len.
  destruct st as [u ep t a pp vs ls ss].
  cbn [generate_expr map]; unfold generate_func_call; cbn -[bind].
  unfold generate_cow_expr, generate_double_expr, generate_lit, intern_static_str,
    static_str_label, gets, new_uid, bind; cbn.
  destruct (assoc s ss); destruct a; cbn; do 3 eexists; (split; [reflexivity|]);
    (split; [rewrite <- !app_assoc; reflexivity|]);
    (cbv; split; [reflexivity|];
     split; [reflexivity|]; split; [right; left; reflexivity|];
     split; [right; right; left; reflexivity|];
     repeat split; reflexivity).
Qed.

End CallRuns.

Section LegacyExpr.

Lemma bind_ok_inv {A B} (m : M A) (k : A -> M B) st b st' :
  bind m k st = Ok b st' -> exists a s1, m st = Ok a s1 /\ k a s1 = Ok b st'.
Proof.
  unfold bind; destruct (m st) as [a s1| |]; intros E; try discriminate.
  exists a, s1; split; [reflexivity | exact E].
Qed.

Lemma bind_err_inv {A B} (m : M A) (k : A -> M B) st e st' :
  bind m k st = Err e st' ->
  m st = Err e st' \/ exists a s1, m st = Ok a s1 /\ k a s1 = Err e st'.
Proof.
  unfold bind; destruct (m st) as [a s1|e' s1|]; intros E; try discriminate.
  - right; exists a, s1; split; [reflexivity | exact E].
  - left; injection E as -> ->; reflexivity.
Qed.

Lemma legacy_push_lit_ok lit st : exists st', push_lit lit st = Ok tt st'.
Proof. destruct lit as [| |[]]; eexists; reflexivity. Qed.

(** X10: the program assembler's [generate_expr] succeeds exactly on
    literals and on [++] of one or two operands it supports; on anything
    else it fails or panics, from every state. *)
Lemma legacy_generate_expr_ok e :
  forall st, (exists st', X86_64.generate_expr e st = Ok tt st') <-> legacy_supported e = true.
Proof.
  induction e as [lit|sym sp|f sp args IH|ps ns _ _|ns ds _ _] using Expr_ind';
    intros st; cbn [X86_64.generate_expr legacy_supported];
    try (split; [intros [? H]; discriminate | discriminate]).
  - split; [reflexivity | intros _; apply legacy_push_lit_ok].
  - unfold X86_64.generate_func_call.
    destruct (String.eqb f "++"); cbn [andb].
    2: destruct (existsb _ _); (split; [intros [? H]; discriminate | discriminate]).
    destruct args as [|a1 [|a2 [|a3 r]]]; cbn [map];
      try (split; [intros [? H]; discriminate | discriminate]).
    + inversion IH as [|? ? IH1 _]; subst; apply IH1.
    + inversion IH as [|? ? IH1 IH']; inversion IH' as [|? ? IH2 _]; subst.
      split.
      * intros [st' H].
        apply bind_ok_inv in H; destruct H as ([] & s1 & _ & H).
        apply bind_ok_inv in H; destruct H as ([] & s2 & H2 & H).
        apply bind_ok_inv in H; destruct H as ([] & s3 & _ & H).
        apply bind_ok_inv in H; destruct H as ([] & s4 & H1 & _).
        apply andb_true_intro; split;
          [apply (proj1 (IH1 s3)) | apply (proj1 (IH2 s1))]; eexists; eassumption.
      * intros H; apply andb_prop in H; destruct H as [H1 H2].
        unfold cowify, drop_pop.
        erewrite (bind_ok (emit _)) by reflexivity.
        match goal with |- exists _, bind (X86_64.generate_expr a2) _ ?s = _ =>
          destruct (proj2 (IH2 s) H2) as [s2 E2]; rewrite (bind_ok _ _ _ _ _ E2) end.
        erewrite (bind_ok (emit _)) by reflexivity.
        match goal with |- exists _, bind (X86_64.generate_expr a1) _ ?s = _ =>
          destruct (proj2 (IH1 s) H1) as [s4 E4]; rewrite (bind_ok _ _ _ _ _ E4) end.
        eexists; reflexivity.
Qed.

(** X11: the only error the program assembler's [generate_expr] returns is
    [UnknownFunction] for a name outside ["++"] and the names it lists. *)
Lemma legacy_generate_expr_err e :
  forall st err st', X86_64.generate_expr e st = Err err st' ->
  exists f sp, err = UnknownFunction sp f /\ ~ In f ("++" :: X86_64.legacy_known_functions).
Proof.
  induction e as [lit|sym sp|f sp args IH|ps ns _ _|ns ds _ _] using Expr_ind';
    intros st err st' H; cbn [X86_64.generate_expr] in H; try discriminate.
  - destruct lit as [| |[]]; discriminate.
  - unfold X86_64.generate_func_call in H.
    destruct (String.eqb f "++") eqn:Ef.
    + destruct args as [|a1 [|a2 [|a3 r]]]; cbn [map] in H; try discriminate.
      * inversion IH as [|? ? IH1 _]; subst; exact (IH1 _ _ _ H).
      * inversion IH as [|? ? IH1 IH']; inversion IH' as [|? ? IH2 _]; subst.
        apply bind_err_inv in H; destruct H as [H|([] & s1 & _ & H)]; [discriminate|].
        apply bind_err_inv in H; destruct H as [H|([] & s2 & _ & H)]; [exact (IH2 _ _ _ H)|].
        apply bind_err_inv in H; destruct H as [H|([] & s3 & _ & H)]; [discriminate|].
        apply bind_err_inv in H; destruct H as [H|([] & s4 & _ & H)]; [exact (IH1 _ _ _ H)|].
        unfold cowify, drop_pop, emit, bind, ret in H; discriminate.
    + destruct (existsb (String.eqb f) X86_64.legacy_known_functions) eqn:Ek;
        [discriminate|].
      injection H as <- _; exists f, sp; split; [reflexivity|].
      intros [<-|Hin]; [discriminate|].
      assert (Hx : existsb (String.eqb f) X86_64.legacy_known_functions = true)
        by (apply existsb_exists; exists f; split; [exact Hin | apply String.eqb_refl]).
      congruence.
Qed.

(** X12: the program assembler pushes a literal as two words, top first:
    a number as tag 2 over its bit pattern, a string as its data address
    over its length, a boolean as 0 or 1 over 0. *)
Lemma legacy_push_lit_run lit st :
  exists st' code m,
    X86_64.generate_expr (Lit lit) st = Ok tt st' /\ text st' = text st ++ code /\
    Machine.exec code Machine.init = Some m /\
    Machine.stk m = legacy_lit_words lit (uid_generator st).
Proof.
  destruct st as [u ep t a pp vs ls ss]; destruct lit as [bits|s|[]];
    cbn [X86_64.generate_expr]; unfold push_lit.
  all: try (unfold allocate_static_str, new_uid, bind, emit, ret; cbn).
  all: do 3 eexists; (split; [reflexivity|]);
    (split; [cbn; rewrite <- ?app_assoc; reflexivity|]);
    (cbv; split; reflexivity).
Qed.

End LegacyExpr.

Section LegacyProgram.

Variable fmt : Z -> string.

Lemma oa_sequence_ (l : list (M unit)) :
  Forall only_appends l -> only_appends (sequence_ l).
Proof.
  induction 1 as [|m l Hm _ IH]; cbn [sequence_]; [apply oa_ret|].
  apply oa_bind; [exact Hm | intros _; exact IH].
Qed.

Ltac oa_legacy :=
  repeat match goal with
  | |- only_appends (bind _ _) => apply oa_bind; [ | intros ? ]
  | |- only_appends (emit _) => apply oa_emit
  | |- only_appends (ret _) => apply oa_ret
  | |- only_appends (fail _) => apply oa_fail
  | |- only_appends panic => apply oa_panic
  | |- only_appends new_uid => apply oa_new_uid
  | |- only_appends cowify => apply oa_emit
  | |- only_appends drop_pop => apply oa_emit
  | |- only_appends (allocate_static_str _) => unfold allocate_static_str
  | H : only_appends ?m |- only_appends ?m => exact H
  | |- only_appends (match ?x with _ => _ end) => destruct x
  | |- only_appends (if ?c then _ else _) => destruct c
  end.

Lemma oa_legacy_expr e : only_appends (X86_64.generate_expr e).
Proof.
  induction e as [lit|sym sp|f sp args IH|ps ns _ _|ns ds _ _] using Expr_ind';
    cbn [X86_64.generate_expr]; try apply oa_panic.
  - unfold push_lit; oa_legacy.
  - unfold X86_64.generate_func_call.
    destruct (String.eqb f "++"); [|oa_legacy].
    destruct args as [|a1 [|a2 [|a3 r]]]; cbn [map]; try apply oa_panic.
    + inversion IH; assumption.
    + inversion IH as [|? ? IH1 IH']; inversion IH' as [|? ? IH2 _]; subst; oa_legacy.
Qed.

Lemma oa_legacy_statement s : only_appends (X86_64.generate_statement fmt s).
Proof.
  induction s as [f args|stmts IH|c t f _ _|n b _|b IH|c b _|c b _|x n b _]
    using Statement_ind'; cbn [X86_64.generate_statement]; try apply oa_panic.
  - unfold X86_64.generate_proc_call.
    pose proof oa_legacy_expr.
    destruct (String.eqb f "print"); [|apply oa_panic].
    destruct args as [|[] [|]]; oa_legacy; apply oa_legacy_expr.
  - apply oa_sequence_, Forall_map; exact IH.
  - oa_legacy.
Qed.

Lemma legacy_generate_proc_ok name proc st u st' :
  X86_64.generate_proc fmt name proc st = Ok u st' ->
  name = "when-flag-clicked" /\ params proc = [] /\ u = uid_generator st /\
  entry_points st' = entry_points st ++ [u] /\
  (uid_generator st < uid_generator st')%N /\
  exists c, text st' = text st ++ Label (LUid u) :: c.
Proof.
  unfold X86_64.generate_proc.
  destruct (String.eqb_spec name "when-flag-clicked") as [->|]; [|discriminate].
  destruct (params proc) as [|p ps]; [|discriminate].
  intros H.
  apply bind_ok_inv in H; destruct H as (u0 & s1 & E1 & H); injection E1 as <- <-.
  apply bind_ok_inv in H; destruct H as ([] & s2 & E2 & H); injection E2 as <-.
  apply bind_ok_inv in H; destruct H as ([] & s3 & E3 & H); injection E3 as <-.
  apply bind_ok_inv in H; destruct H as ([] & s4 & E4 & H).
  apply bind_ok_inv in H; destruct H as ([] & s5 & E5 & H); injection E5 as <-.
  injection H as <- <-.
  destruct (oa_legacy_statement (body proc) _ _ _ E4) as (P & _ & _ & _ & U & c & T).
  destruct st; cbn in *.
  repeat split; [rewrite P; reflexivity | lia |].
  exists (c ++ [Ins "ret" []]); rewrite T, <- !app_assoc; reflexivity.
Qed.

Lemma legacy_generate_all_ok ps :
  forall st st', X86_64.generate_all fmt ps st = Ok tt st' ->
  Forall (fun p => fst p = "when-flag-clicked" /\ params (snd p) = []) ps /\
  exists L, entry_points st' = entry_points st ++ L /\ List.length L = List.length ps /\
    NoDup L /\
    Forall (fun u => (uid_generator st <= u < uid_generator st')%N /\
                     In (Label (LUid u)) (text st')) L /\
    (uid_generator st <= uid_generator st')%N /\ exists c, text st' = text st ++ c.
Proof.
  unfold X86_64.generate_all.
  induction ps as [|[name proc] ps IH]; intros st st' H; cbn [foreach] in H.
  - injection H as <-; split; [constructor|].
    exists []; rewrite app_nil_r; repeat split; try constructor; try lia.
    exists []; rewrite app_nil_r; reflexivity.
  - apply bind_ok_inv in H; destruct H as ([] & s1 & E1 & H).
    apply bind_ok_inv in E1; destruct E1 as (u & s0 & E0 & E1); injection E1 as <-.
    destruct (legacy_generate_proc_ok _ _ _ _ _ E0) as (Hn & Hp & Hu & P0 & U0 & c0 & T0).
    destruct (IH _ _ H) as (Hall & L & P1 & Len & ND & HL & U1 & c1 & T1).
    split; [constructor; [split; assumption | exact Hall]|].
    exists (u :: L); split; [rewrite P1, P0, <- app_assoc; reflexivity|].
    split; [cbn; rewrite Len; reflexivity|].
    split.
    + constructor; [|exact ND].
      intros Hin; rewrite Forall_forall in HL; destruct (HL u Hin) as [[Hlo _] _]; lia.
    + split; [|split; [lia|]].
      * constructor.
        -- split; [lia|]. rewrite T1, T0; apply in_or_app; left; apply in_or_app; right; left; reflexivity.
        -- eapply Forall_impl; [|exact HL]; cbn; intros v [[Hv1 Hv2] Hv3]; split; [lia|exact Hv3].
      * exists ((Label (LUid u) :: c0) ++ c1); rewrite T1, T0, app_assoc; reflexivity.
Qed.

End LegacyProgram.

Section MoreExpr.

(** X9: the list operand of [!!] and [length] must be written as a symbol;
    any other expression there is reported as [FunctionWrongArgCount] with
    the expected count equal to the count given. *)
Lemma list_operand_must_be_symbol a idx sp st :
  (forall n nsp, a <> Sym n nsp) ->
  generate_expr (FuncCall "!!" sp [a; idx]) st =
    Err (FunctionWrongArgCount sp "!!" 2 2) st /\
  generate_expr (FuncCall "length" sp [a]) st =
    Err (FunctionWrongArgCount sp "length" 1 1) st.
Proof.
  intros H; destruct a as [| n nsp | | |]; [| exfalso; exact (H n nsp eq_refl) | | |];
    split; reflexivity.
Qed.

Lemma position_lt x l i : position x l = Some i -> (i < List.length l)%nat.
Proof.
  revert i; induction l as [|y l IH]; intros i H; cbn in H; [discriminate|].
  destruct (String.eqb y x); [injection H as <-; cbn; lia|].
  destruct (position x l) as [j|]; [|discriminate]; injection H as <-.
  specialize (IH j eq_refl); cbn; lia.
Qed.

(** X16: a symbol that names a procedure parameter is loaded from the
    parameter's 16-byte slot at [rbp + 16 * (n - i)] ([i] the first
    position of the name among the [n] parameters), between [rbp+16] and
    [rbp+16n], before any variable of that name, and then cloned with
    [clone_any]. *)
Lemma param_slot sym sp st i :
  position sym (proc_params st) = Some i ->
  let off := Z.of_nat ((List.length (proc_params st) - i) * 16) in
  (16 <= off <= 16 * Z.of_nat (List.length (proc_params st)))%Z /\
  exists st' c,
    generate_expr (Sym sym sp) st = Ok Typ.Any st' /\
    text st' = text st ++ [Ins "mov" [rdi; Mem (LReg "rbp") off];
                           Ins "mov" [rsi; Mem (LReg "rbp") (off + 8)]] ++ c /\
    In (call "clone_any") c.
Proof.
  intros H off; pose proof (position_lt _ _ _ H) as Hi; split; [unfold off; lia|].
  cbn [generate_expr]; unfold generate_symbol, gets, bind; rewrite H.
  unfold aligning_call, emit, ret; destruct st as [u ep t a pp vs ls ss]; cbn.
  destruct a; cbn; do 2 eexists; (split; [reflexivity|]);
    (split; [rewrite <- !app_assoc; reflexivity | cbn; tauto]).
Qed.

End MoreExpr.

Section LegacyPrint.

Variable fmt : Z -> string.

Lemma bytes_length s : List.length (bytes s) = String.length s.
Proof.
  unfold bytes; rewrite length_map.
  induction s as [|c s IH]; cbn; [reflexivity | rewrite IH; reflexivity].
Qed.

(** X17: printing a literal in the program assembler stores the bytes of
    its text form under a fresh label, and sets up the [write] system call
    with [rax = 1], [rdi = 1] (stdout), [rsi] the label and [rdx] the number
    of stored bytes. *)
Lemma legacy_print_lit v st :
  let msg := X86_64.to_cow_str fmt v in
  exists st' c m,
    X86_64.generate_proc_call fmt "print" [Lit v] st = Ok tt st' /\
    text st' = text st ++ StaticData (uid_generator st) (bytes msg) :: c ++ [Ins "syscall" []] /\
    Machine.exec c Machine.init = Some m /\
    Machine.get_reg m "rax" = Machine.SNum 1 /\ Machine.get_reg m "rdi" = Machine.SNum 1 /\
    Machine.get_reg m "rsi" = Machine.SAddr (LUid (uid_generator st)) /\
    Machine.get_reg m "rdx" = Machine.SNum (Z.of_nat (List.length (bytes msg))).
Proof.
  intros msg; rewrite bytes_length.
  unfold X86_64.generate_proc_call; cbn -[bind X86_64.to_cow_str].
  fold msg; clearbody msg.
  unfold allocate_static_str, new_uid, emit, bind, ret; destruct st; cbn.
  eexists; exists [Ins "mov" [rax; Imm 1]; Ins "mov" [rdi; Imm 1];
                   Ins "mov" [rsi; Ref (LUid uid_generator0)];
                   Ins "mov" [rdx; Imm (Z.of_nat (String.length msg))]].
  eexists; split; [reflexivity|]; split; [rewrite <- !app_assoc; reflexivity|].
  cbv; split; [reflexivity|]; repeat split; reflexivity.
Qed.

End LegacyPrint.

Section ExtraProperties.

(** X1: compiling an expression with [expr.rs]'s [generate_expr] only
    appends code to the text and may advance the uid counter; it never
    changes the entry points, the procedure parameters, the variables or the
    lists. *)
Theorem expr_generate_footprint e st t st' :
  generate_expr e st = Ok t st' ->
  entry_points st' = entry_points st /\ proc_params st' = proc_params st /\
  vars st' = vars st /\ lists st' = lists st /\
  (uid_generator st <= uid_generator st')%N /\ exists c, text st' = text st ++ c.
Proof. intros H; exact (oa_generate_expr e st t st' H). Qed.

Lemma expr_generate_footprint_witness :
  exists t st',
    generate_expr (FuncCall "++" sample_span [str_lit "ab"; str_lit "cd"])
      (sample_state false) = Ok t st' /\
    entry_points st' = entry_points (sample_state false) /\
    proc_params st' = proc_params (sample_state false) /\
    vars st' = vars (sample_state false) /\ lists st' = lists (sample_state false) /\
    (uid_generator (sample_state false) <= uid_generator st')%N /\
    exists c, text st' = text (sample_state false) ++ c.
Proof.
  destruct (generate_expr (FuncCall "++" sample_span [str_lit "ab"; str_lit "cd"])
              (sample_state false)) as [t st'|err st'|] eqn:E;
    [| vm_compute in E; discriminate | vm_compute in E; discriminate].
  exists t, st'; split; [reflexivity|].
  exact (expr_generate_footprint _ (sample_state false) t st' E).
Defined.

(** X2: the representation [generate_expr] returns is fixed by the shape of
    the expression ([expr_typ]): number literals, arithmetic, [length],
    [str-length], [mod], the math functions and [to-num] give [Double];
    comparisons, [not], [and]/[or] of zero or two or more operands give
    [Bool]; [++] of two or more and [char-at] give [OwnedString]; [!!] and
    symbols give [Any]; one-operand [++]/[and]/[or] give the operand's.
    [pressing-key], [random] and unknown names never succeed. *)
Theorem generate_expr_result_typ e st t st' :
  generate_expr e st = Ok t st' -> expr_typ e = Some t.
Proof. intros H; exact (expr_typ_generate_expr e st t st' H). Qed.

Lemma generate_expr_result_typ_witness :
  exists t st',
    generate_expr (FuncCall "and" sample_span [bool_lit true; num_lit f64_five])
      (sample_state true) = Ok t st' /\
    expr_typ (FuncCall "and" sample_span [bool_lit true; num_lit f64_five]) = Some t.
Proof.
  destruct (generate_expr (FuncCall "and" sample_span [bool_lit true; num_lit f64_five])
              (sample_state true)) as [t st'|err st'|] eqn:E;
    [| vm_compute in E; discriminate | vm_compute in E; discriminate].
  exists t, st'; split; [reflexivity|].
  exact (generate_expr_result_typ _ (sample_state true) t st' E).
Defined.

(** X3: an [AddSub] of number literals with at least one positive operand
    loads the first positive, adds the other positives in order (each new
    term as the left operand of [addsd]), then subtracts the negatives in
    order from the accumulator, and leaves the result in [xmm0] with the
    stack as it found it. *)
Theorem add_sub_numbers_run x ps ns st :
  exists st' code m,
    generate_expr (AddSub (map num_lit (x :: ps)) (map num_lit ns)) st = Ok Typ.Double st' /\
    text st' = text st ++ code /\
    Machine.exec code Machine.init = Some m /\
    Machine.get_reg m "xmm0" =
      acc_fold_rev "subsd" (acc_fold "addsd" (Machine.SNum x) ps) ns /\
    Machine.stk m = [].
Proof.
  destruct (compiles_add_sub_numbers x ps ns st) as (st' & E & T).
  destruct (runs_fold_both "addsd" "subsd" x ps ns (or_introl (conj eq_refl eq_refl)))
    as (m & R & X & S).
  do 3 eexists; split; [exact E|]; split; [exact T|]; split; [exact R|]; split; assumption.
Qed.

(** X4: a [MulDiv] of number literals with at least one numerator loads
    the first numerator, multiplies by the other numerators in order, then
    divides the accumulator by the denominators in order, and leaves the
    result in [xmm0] with the stack as it found it. *)
Theorem mul_div_numbers_run x ns ds st :
  exists st' code m,
    generate_expr (MulDiv (map num_lit (x :: ns)) (map num_lit ds)) st = Ok Typ.Double st' /\
    text st' = text st ++ code /\
    Machine.exec code Machine.init = Some m /\
    Machine.get_reg m "xmm0" =
      acc_fold_rev "divsd" (acc_fold "mulsd" (Machine.SNum x) ns) ds /\
    Machine.stk m = [].
Proof.
  destruct (compiles_mul_div_numbers x ns ds st) as (st' & E & T).
  destruct (runs_fold_both "mulsd" "divsd" x ns ds (or_intror (conj eq_refl eq_refl)))
    as (m & R & X & S).
  do 3 eexists; split; [exact E|]; split; [exact T|]; split; [exact R|]; split; assumption.
Qed.

(** X13: compiling a statement with the program assembler's
    [generate_statement] never registers an entry point, never moves the
    uid counter back, and only appends to the text. *)
Theorem legacy_statement_footprint fmt s st st' :
  X86_64.generate_statement fmt s st = Ok tt st' ->
  entry_points st' = entry_points st /\
  (uid_generator st <= uid_generator st')%N /\ exists c, text st' = text st ++ c.
Proof.
  intros H; destruct (oa_legacy_statement fmt s st tt st' H) as (P & _ & _ & _ & U & T).
  split; [exact P | split; [exact U | exact T]].
Qed.

Lemma legacy_statement_footprint_witness :
  exists st',
    X86_64.generate_statement (fun _ => "0") (Forever (ProcCall "print" [str_lit "a"]))
      empty_program = Ok tt st' /\
    entry_points st' = entry_points empty_program /\
    (uid_generator empty_program <= uid_generator st')%N /\
    exists c, text st' = text empty_program ++ c.
Proof.
  destruct (X86_64.generate_statement (fun _ => "0") (Forever (ProcCall "print" [str_lit "a"]))
              empty_program) as [[] st'|err st'|] eqn:E;
    [| vm_compute in E; discriminate | vm_compute in E; discriminate].
  exists st'; split; [reflexivity|].
  exact (legacy_statement_footprint _ _ empty_program st' E).
Defined.

(** X14: [write_asm_file] succeeds only when every procedure of the
    program is a ["when-flag-clicked"] procedure without parameters. *)
Theorem write_asm_file_only_flag_procs fmt program out st :
  X86_64.write_asm_file fmt program = Ok out st ->
  Forall (fun p => fst p = "when-flag-clicked" /\ params (snd p) = [])
    (X86_64.all_procs program).
Proof.
  unfold X86_64.write_asm_file; intros H.
  destruct (X86_64.generate_all fmt (X86_64.all_procs program) empty_program)
    as [[] st1|e st1|] eqn:E; try discriminate.
  exact (proj1 (legacy_generate_all_ok fmt _ _ _ E)).
Qed.

Lemma write_asm_file_only_flag_procs_witness :
  exists out st,
    X86_64.write_asm_file (fun _ => "0") two_starts_program = Ok out st /\
    Forall (fun p => fst p = "when-flag-clicked" /\ params (snd p) = [])
      (X86_64.all_procs two_starts_program).
Proof.
  destruct (X86_64.write_asm_file (fun _ => "0") two_starts_program) as [out st|err st|] eqn:E;
    [| vm_compute in E; discriminate | vm_compute in E; discriminate].
  exists out, st; split; [reflexivity|].
  exact (write_asm_file_only_flag_procs _ _ out st E).
Defined.

(** X15: after a successful [write_asm_file], there is one entry point per
    procedure, the entry points are pairwise distinct, and each is a uid
    below the final counter whose label is in the text. *)
Theorem write_asm_file_entry_points fmt program out st :
  X86_64.write_asm_file fmt program = Ok out st ->
  List.length (entry_points st) = List.length (X86_64.all_procs program) /\
  NoDup (entry_points st) /\
  Forall (fun u => (u < uid_generator st)%N /\ In (Label (LUid u)) (text st))
    (entry_points st).
Proof.
  unfold X86_64.write_asm_file; intros H.
  destruct (X86_64.generate_all fmt (X86_64.all_procs program) empty_program)
    as [[] st1|e st1|] eqn:E; try discriminate.
  injection H as _ <-.
  destruct (legacy_generate_all_ok fmt _ _ _ E) as (_ & L & P & Len & ND & HL & _).
  cbn in P; rewrite P.
  split; [exact Len | split; [exact ND|]].
  eapply Forall_impl; [|exact HL]; intros u [[_ Hu] Hl]; split; assumption.
Qed.

Lemma write_asm_file_entry_points_witness :
  exists out st,
    X86_64.write_asm_file (fun _ => "0") two_starts_program = Ok out st /\
    List.length (entry_points st) = List.length (X86_64.all_procs two_starts_program) /\
    NoDup (entry_points st) /\
    Forall (fun u => (u < uid_generator st)%N /\ In (Label (LUid u)) (text st))
      (entry_points st).
Proof.
  destruct (X86_64.write_asm_file (fun _ => "0") two_starts_program) as [out st|err st|] eqn:E;
    [| vm_compute in E; discriminate | vm_compute in E; discriminate].
  exists out, st; split; [reflexivity|].
  exact (write_asm_file_entry_points _ _ out st E).
Defined.

(** Concrete instances of the run and error properties above. *)
Definition list_state : AsmProgram := mkAsm 0 [] [] true ["p"; "q"] [] [("xs", 7%N)] [].

Lemma list_index_run_witness :
  assoc "xs" (lists list_state) = Some 7%N /\
  exists st' code m,
    generate_expr (FuncCall "!!" sample_span [Sym "xs" sample_span; num_lit 3]) list_state
      = Ok Typ.Any st' /\
    text st' = text list_state ++ code /\
    Machine.exec code Machine.init = Some m /\
    Machine.calls m = [("list_get", [Machine.SNum 2; Machine.SNum 3; Machine.SAddr (LUid 7)])] /\
    Machine.stk m = [].
Proof.
  split; [reflexivity|].
  apply (list_index_run "xs" sample_span 3 sample_span list_state 7); reflexivity.
Defined.

Lemma list_operand_must_be_symbol_witness :
  (forall n nsp, num_lit 1 <> Sym n nsp) /\
  generate_expr (FuncCall "!!" sample_span [num_lit 1; num_lit 2]) list_state =
    Err (FunctionWrongArgCount sample_span "!!" 2 2) list_state /\
  generate_expr (FuncCall "length" sample_span [num_lit 1]) list_state =
    Err (FunctionWrongArgCount sample_span "length" 1 1) list_state.
Proof.
  assert (H : forall n nsp, num_lit 1 <> Sym n nsp) by (intros n nsp E; discriminate E).
  split; [exact H|].
  exact (list_operand_must_be_symbol (num_lit 1) (num_lit 2) sample_span list_state H).
Defined.

Lemma param_slot_witness :
  position "p" (proc_params list_state) = Some 0%nat /\
  let off := Z.of_nat ((List.length (proc_params list_state) - 0) * 16) in
  (16 <= off <= 16 * Z.of_nat (List.length (proc_params list_state)))%Z /\
  exists st' c,
    generate_expr (Sym "p" sample_span) list_state = Ok Typ.Any st' /\
    text st' = text list_state ++ [Ins "mov" [rdi; Mem (LReg "rbp") off];
                                   Ins "mov" [rsi; Mem (LReg "rbp") (off + 8)]] ++ c /\
    In (call "clone_any") c.
Proof.
  split; [reflexivity|].
  apply (param_slot "p" sample_span list_state 0); reflexivity.
Defined.

Lemma legacy_generate_expr_err_witness :
  X86_64.generate_expr (FuncCall "frob" sample_span []) empty_program =
    Err (UnknownFunction sample_span "frob") empty_program /\
  exists f sp, UnknownFunction sample_span "frob" = UnknownFunction sp f /\
    ~ In f ("++" :: X86_64.legacy_known_functions).
Proof.
  assert (E : X86_64.generate_expr (FuncCall "frob" sample_span []) empty_program =
              Err (UnknownFunction sample_span "frob") empty_program) by reflexivity.
  split; [exact E|].
  exact (legacy_generate_expr_err _ _ _ _ E).
Defined.

End ExtraProperties.
